(** * node-iracing-sdk: the binary telemetry decoder, in Rocq

    A shallow embedding of [structs.ts], [constants.ts], [utils.ts],
    [ibt.ts] and the telemetry read path of [irsdk.ts], followed by the
    properties the specification states about them.

    Conventions.
    - A Node.js [Buffer] is a view (byte offset, length) onto a backing
      [ArrayBuffer]; [Buffer.prototype.slice] makes a new view onto the same
      bytes, [Buffer.from(buffer)] copies.  The backing bytes are passed
      explicitly (the parameter named [ab]) to everything that reads.
    - A JavaScript exception is the [Throw] constructor of [outcome];
      [null] and [undefined] are values.
    - 32-bit integers read from the region are [Z]; floats are kept as the
      IEEE-754 datum the four or eight bytes denote ([spec_float]). *)

From Stdlib Require Import ZArith Lia List.
From Stdlib Require Import Strings.Byte Strings.Ascii Strings.String.
From Stdlib Require Import Floats.SpecFloat Sorting.Sorted.
From stdpp Require Import base option list list_numbers gmap strings.

Local Open Scope Z_scope.

(** ** Outcomes: a value, or a thrown exception *)

Inductive exn : Type :=
| RangeError      (* ERR_OUT_OF_RANGE of the Buffer read methods *)
| TypeError       (* property access on undefined *)
| JsError         (* a plain [new Error(...)] *)
| YAMLException.  (* thrown by js-yaml's load *)

Inductive outcome (A : Type) : Type :=
| Return (a : A)
| Throw (e : exn).
Arguments Return {A} a.
Arguments Throw {A} e.

#[global] Instance outcome_ret : MRet outcome := fun A a => Return a.
#[global] Instance outcome_bind : MBind outcome := fun A B f m =>
  match m with
  | Return a => f a
  | Throw e => Throw e
  end.

#[global] Instance outcome_fmap : FMap outcome := fun A B f m =>
  match m with
  | Return a => Return (f a)
  | Throw e => Throw e
  end.

Definition returns {A} (m : outcome A) : Prop := exists a, m = Return a.

(** ** Bytes *)

Abbreviation bytes := (list byte).

#[global] Instance byte_eq_decision : EqDecision byte := Byte.byte_eq_dec.

Definition byteZ (b : byte) : Z := Z.of_N (Byte.to_N b).

(** The byte with value [n mod 256] (a store into a [Uint8Array]). *)
Definition byte_of_Z (n : Z) : byte :=
  match Byte.of_N (Z.to_N (n mod 256)) with
  | Some b => b
  | None => x00
  end.

(** [mem[i]] of a typed array: [None] is JavaScript's [undefined]. *)
Definition index (mem : bytes) (i : Z) : option byte :=
  if i <? 0 then None else mem !! Z.to_nat i.

(** ** Buffers as views *)

Record Buffer : Type := mkBuffer { byteOffset : nat; blength : nat }.

(** The bytes a view shows, given the present state of the backing store. *)
Definition contents (ab : bytes) (b : Buffer) : bytes :=
  take (blength b) (drop (byteOffset b) ab).

(** The Buffer that [fs.readFileSync] (or the mapping) returns: all of [ab]. *)
Definition whole (ab : bytes) : Buffer := mkBuffer 0 (length ab).

(** [adjustOffset] of lib/buffer.js, on integer arguments. *)
Definition adjustOffset (offset : Z) (len : Z) : Z :=
  if offset =? 0 then 0
  else if offset <? 0 then (if 0 <? offset + len then offset + len else 0)
  else if offset <? len then offset
  else len.

(** [buf.slice(start, end)]: a view onto the same memory. *)
Definition Buffer_slice (b : Buffer) (start end_ : Z) : Buffer :=
  let srcLength := Z.of_nat (blength b) in
  let s := adjustOffset start srcLength in
  let e := adjustOffset end_ srcLength in
  let newLength := if s <? e then e - s else 0 in
  mkBuffer (byteOffset b + Z.to_nat s) (Z.to_nat newLength).

(** The same cut on plain bytes, for a Buffer that owns its storage. *)
Definition bytes_slice (mem : bytes) (start end_ : Z) : bytes :=
  let srcLength := Z.of_nat (length mem) in
  let s := adjustOffset start srcLength in
  let e := adjustOffset end_ srcLength in
  let newLength := if s <? e then e - s else 0 in
  take (Z.to_nat newLength) (drop (Z.to_nat s) mem).

(** [buf.indexOf(byte)]: first position of the byte, [-1] when absent. *)
Fixpoint indexOf_from (mem : bytes) (x : byte) (i : Z) : Z :=
  match mem with
  | [] => -1
  | y :: rest => if decide (y = x) then i else indexOf_from rest x (i + 1)
  end.
Definition indexOf (mem : bytes) (x : byte) : Z := indexOf_from mem x 0.

(** [buf.toString('latin1')]: one code unit per byte. *)
Definition latin1 (mem : bytes) : string := string_of_list_byte mem.

(** [Buffer.from(str, 'utf-8')] for a string whose code units are below 256. *)
Definition utf8_char (c : ascii) : bytes :=
  let n := Z.of_N (N_of_ascii c) in
  if n <? 128 then [byte_of_ascii c]
  else [byte_of_Z (192 + n / 64); byte_of_Z (128 + n mod 64)].
Fixpoint utf8 (s : string) : bytes :=
  match s with
  | EmptyString => []
  | String c rest => utf8_char c ++ utf8 rest
  end.

(** ** The Buffer read methods (lib/internal/buffer.js) *)

Definition toInt32 (z : Z) : Z := (z + 2 ^ 31) mod 2 ^ 32 - 2 ^ 31.

Definition readUInt8 (mem : bytes) (offset : Z) : outcome Z :=
  match index mem offset with
  | Some v => Return (byteZ v)
  | None => Throw RangeError
  end.

(** The four bytes at [offset], checked the way Node checks them: the first
    and the last must exist. *)
Definition read4 (mem : bytes) (offset : Z) : outcome (Z * Z * Z * Z) :=
  match index mem offset, index mem (offset + 3) with
  | Some first, Some last =>
      match index mem (offset + 1), index mem (offset + 2) with
      | Some b1, Some b2 => Return (byteZ first, byteZ b1, byteZ b2, byteZ last)
      | _, _ => Throw RangeError
      end
  | _, _ => Throw RangeError
  end.

Definition readUInt32LE (mem : bytes) (offset : Z) : outcome Z :=
  '(first, b1, b2, last) ← read4 mem offset;
  Return (first + b1 * 2 ^ 8 + b2 * 2 ^ 16 + last * 2 ^ 24).

Definition readInt32LE (mem : bytes) (offset : Z) : outcome Z :=
  '(first, b1, b2, last) ← read4 mem offset;
  Return (first + b1 * 2 ^ 8 + b2 * 2 ^ 16 + toInt32 (Z.shiftl last 24)).

(** The IEEE-754 datum of a bit pattern with [mw] fraction bits and [ew]
    exponent bits. *)
Definition decode_ieee (mw ew : Z) (x : Z) : spec_float :=
  let m := x mod 2 ^ mw in
  let e := (x / 2 ^ mw) mod 2 ^ ew in
  let s := Z.testbit x (mw + ew) in
  let bias := 2 ^ (ew - 1) - 1 in
  if e =? 0 then
    match m with
    | Zpos p => S754_finite s p (1 - bias - mw)
    | _ => S754_zero s
    end
  else if e =? 2 ^ ew - 1 then
    (if m =? 0 then S754_infinity s else S754_nan)
  else
    match m + 2 ^ mw with
    | Zpos p => S754_finite s p (e - bias - mw)
    | _ => S754_nan
    end.

(** Little-endian value of a run of bytes. *)
Fixpoint le_value (l : list Z) : Z :=
  match l with
  | [] => 0
  | b :: rest => b + 256 * le_value rest
  end.

Definition read8 (mem : bytes) (offset : Z) : outcome (list Z) :=
  match index mem offset, index mem (offset + 7) with
  | Some _, Some _ =>
      mapM (fun j => match index mem (offset + j) with
                     | Some v => Return (byteZ v)
                     | None => Throw RangeError
                     end) (seqZ 0 8)
  | _, _ => Throw RangeError
  end.

Definition readFloatLE (mem : bytes) (offset : Z) : outcome spec_float :=
  '(first, b1, b2, last) ← read4 mem offset;
  Return (decode_ieee 23 8 (le_value [first; b1; b2; last])).

Definition readDoubleLE (mem : bytes) (offset : Z) : outcome spec_float :=
  bs ← read8 mem offset;
  Return (decode_ieee 52 11 (le_value bs)).

(** ** JavaScript values returned to callers *)

#[warnings="-register-all"]
Inductive value : Type :=
| VNull
| VUndefined
| VNum (n : Z)
| VFloat (f : spec_float)
| VBool (b : bool)
| VArray (l : list value).

(** ** constants.ts *)

Definition VAR_TYPE_MAP : list ascii :=
  ["c"; "?"; "i"; "I"; "f"; "d"]%char.

Definition YAML_TRANSLATER : list (Z * Z) :=
  [(0x81, 0x20); (0x8d, 0x20); (0x8f, 0x20); (0x90, 0x20); (0x9d, 0x20)].

(** [VAR_TYPE_MAP[type]]: [None] is [undefined]. *)
Definition typeChar_of (type : Z) : option ascii :=
  if type <? 0 then None else VAR_TYPE_MAP !! Z.to_nat type.

(** ** structs.ts *)

Record IRSDKStruct : Type := mkStruct { _sharedMem : Buffer; _offset : Z }.

(** [getValue(offset, type)] *)
Definition getValue (ab : bytes) (s : IRSDKStruct) (offset : Z) (type : ascii)
  : outcome value :=
  let absoluteOffset := _offset s + offset in
  let mem := contents ab (_sharedMem s) in
  if decide (type = "i"%char) then VNum <$> readInt32LE mem absoluteOffset
  else if decide (type = "I"%char) then VNum <$> readUInt32LE mem absoluteOffset
  else if decide (type = "f"%char) then VFloat <$> readFloatLE mem absoluteOffset
  else if decide (type = "d"%char) then VFloat <$> readDoubleLE mem absoluteOffset
  else if decide (type = "?"%char) then
    (fun v => VBool (negb (v =? 0))) <$> readUInt8 mem absoluteOffset
  else if decide (type = "c"%char) then VNum <$> readUInt8 mem absoluteOffset
  else Throw JsError.

(** The ['i'] case of [getValue], as every integer getter uses it. *)
Definition getInt (ab : bytes) (s : IRSDKStruct) (offset : Z) : outcome Z :=
  readInt32LE (contents ab (_sharedMem s)) (_offset s + offset).

(** [getStringValue(offset, maxLength)] *)
Definition getStringValue (ab : bytes) (s : IRSDKStruct) (offset maxLength : Z)
  : string :=
  let absoluteOffset := _offset s + offset in
  let buffer := Buffer_slice (_sharedMem s) absoluteOffset (absoluteOffset + maxLength) in
  let nullIndex := indexOf (contents ab buffer) x00 in
  let actualBuffer := if nullIndex =? -1 then buffer else Buffer_slice buffer 0 nullIndex in
  latin1 (contents ab actualBuffer).

Module VarBuffer.
Record t : Type := mk {
  base : IRSDKStruct;
  _bufLen : Z;
  _isFrozen : bool;
  _frozenMemory : option Buffer
}.

Definition new (sharedMem : Buffer) (offset bufLen : Z) : t :=
  mk (mkStruct sharedMem offset) bufLen false None.

Definition tickCount (ab : bytes) (vb : t) : outcome Z := getInt ab (base vb) 0.
Definition _bufOffset (ab : bytes) (vb : t) : outcome Z := getInt ab (base vb) 4.

Definition bufOffset (ab : bytes) (vb : t) : outcome Z :=
  if _isFrozen vb then Return 0 else _bufOffset ab vb.

Definition isMemoryFrozen (vb : t) : bool := _isFrozen vb.

(** [freeze()]: the object after the call; a throwing read of the buffer
    offset leaves it as it was. *)
Definition freeze (ab : bytes) (vb : t) : outcome t :=
  o1 ← _bufOffset ab vb;
  o2 ← _bufOffset ab vb;
  Return (mk (base vb) (_bufLen vb) true
             (Some (Buffer_slice (_sharedMem (base vb)) o1 (o2 + _bufLen vb)))).

Definition unfreeze (vb : t) : t := mk (base vb) (_bufLen vb) false None.

Definition getMemory (vb : t) : Buffer :=
  match _isFrozen vb, _frozenMemory vb with
  | true, Some frozen => frozen
  | _, _ => _sharedMem (base vb)
  end.
End VarBuffer.

Module Header.
Abbreviation t := IRSDKStruct.

Definition version (ab : bytes) (h : t) := getInt ab h 0.
Definition status (ab : bytes) (h : t) := getInt ab h 4.
Definition tickRate (ab : bytes) (h : t) := getInt ab h 8.
Definition sessionInfoUpdate (ab : bytes) (h : t) := getInt ab h 12.
Definition sessionInfoLen (ab : bytes) (h : t) := getInt ab h 16.
Definition sessionInfoOffset (ab : bytes) (h : t) := getInt ab h 20.
Definition numVars (ab : bytes) (h : t) := getInt ab h 24.
Definition varHeaderOffset (ab : bytes) (h : t) := getInt ab h 28.
Definition numBuf (ab : bytes) (h : t) := getInt ab h 32.
Definition bufLen (ab : bytes) (h : t) := getInt ab h 36.

(** [get varBuf()]: a fresh list of fresh [VarBuffer] objects on every
    access.  The loop bound [this.numBuf] reads the same bytes before
    every iteration; it is read once here. *)
Definition varBuf (ab : bytes) (h : t) : outcome (list VarBuffer.t) :=
  n ← numBuf ab h;
  mapM (fun i => bl ← bufLen ab h;
                 Return (VarBuffer.new (_sharedMem h) (48 + i * 16) bl))
       (seqZ 0 n).
End Header.

Module VarHeader.
Abbreviation t := IRSDKStruct.

Definition type (ab : bytes) (v : t) := getInt ab v 0.
Definition offset (ab : bytes) (v : t) := getInt ab v 4.
Definition count (ab : bytes) (v : t) := getInt ab v 8.
Definition countAsTime (ab : bytes) (v : t) := getValue ab v 12 "?".
Definition name (ab : bytes) (v : t) : string := getStringValue ab v 16 32.
Definition desc (ab : bytes) (v : t) : string := getStringValue ab v 48 64.
Definition unit (ab : bytes) (v : t) : string := getStringValue ab v 112 32.
End VarHeader.

Module DiskSubHeader.
Abbreviation t := IRSDKStruct.

Definition sessionStartTime (ab : bytes) (d : t) := getValue ab d 8 "d".
Definition sessionEndTime (ab : bytes) (d : t) := getValue ab d 16 "d".
Definition sessionLapCount (ab : bytes) (d : t) := getInt ab d 24.
Definition sessionRecordCount (ab : bytes) (d : t) := getInt ab d 28.
End DiskSubHeader.

(** ** The value codec shared by [ibt.ts] and [irsdk.ts] *)

(** [unpackSingleValue] / [unpackValue]: the switch on the type character;
    [None] ([undefined]) and every other character take the default. *)
Definition unpackValue (mem : bytes) (offset : Z) (typeChar : option ascii)
  : outcome value :=
  match typeChar with
  | Some c =>
      if decide (c = "i"%char) then VNum <$> readInt32LE mem offset
      else if decide (c = "I"%char) then VNum <$> readUInt32LE mem offset
      else if decide (c = "f"%char) then VFloat <$> readFloatLE mem offset
      else if decide (c = "d"%char) then VFloat <$> readDoubleLE mem offset
      else if decide (c = "?"%char) then
        (fun v => VBool (negb (v =? 0))) <$> readUInt8 mem offset
      else if decide (c = "c"%char) then VNum <$> readUInt8 mem offset
      else Return (VNum 0)
  | None => Return (VNum 0)
  end.

Definition getTypeSize (typeChar : option ascii) : Z :=
  match typeChar with
  | Some c =>
      if decide (c = "i"%char) then 4
      else if decide (c = "I"%char) then 4
      else if decide (c = "f"%char) then 4
      else if decide (c = "d"%char) then 8
      else if decide (c = "?"%char) then 1
      else if decide (c = "c"%char) then 1
      else 0
  | None => 0
  end.

(** A scalar for [count === 1], otherwise an array of [count] elements. *)
Definition unpackValues (mem : bytes) (offset : Z) (typeChar : option ascii)
    (count : Z) : outcome value :=
  if count =? 1 then unpackValue mem offset typeChar
  else
    let typeSize := getTypeSize typeChar in
    VArray <$> mapM (fun i => unpackValue mem (offset + i * typeSize) typeChar)
                    (seqZ 0 count).

(** ** ibt.ts: the replay-file reader *)

Module IBT.
Record t : Type := mk {
  ibtFile : option string;            (* the stream, by its path *)
  sharedMem : option Buffer;
  header : option Header.t;
  diskHeader : option DiskSubHeader.t;
  varHeaders : option (list VarHeader.t);
  varHeadersDict : gmap string VarHeader.t;
  varHeadersNames : option (list string)
}.

(** [new IBT()] *)
Definition new : t := mk None None None None None ∅ None.

Definition fileName (st : t) : option string := ibtFile st.

(** [open(ibtFilePath)], the file holding [fileData]; the Buffer that
    [readFileSync] returns spans all of its backing store. *)
Definition open (ibtFilePath : string) (fileData : bytes) (st : t) : t :=
  let mem := whole fileData in
  mk (Some ibtFilePath) (Some mem) (Some (mkStruct mem 0))
     (Some (mkStruct mem 112))
     (varHeaders st) (varHeadersDict st) (varHeadersNames st).

Definition close (st : t) : t := mk None None None None None ∅ None.

Definition unpackSingleValue (ab : bytes) (st : t) (offset : Z)
    (typeChar : option ascii) : outcome value :=
  match sharedMem st with
  | None => Return VNull
  | Some mem => unpackValue (contents ab mem) offset typeChar
  end.

Definition unpackValues (ab : bytes) (st : t) (offset : Z)
    (typeChar : option ascii) (count : Z) : outcome value :=
  match sharedMem st with
  | None => Return VNull
  | Some mem => unpackValues (contents ab mem) offset typeChar count
  end.

(** One turn of the loop of [getVarHeaders]. *)
Definition getVarHeaders_step (ab : bytes) (h : Header.t) (mem : Buffer)
    (acc : outcome unit * t) (i : Z) : outcome unit * t :=
  match acc with
  | (Throw e, st) => (Throw e, st)
  | (Return _, st) =>
      match Header.varHeaderOffset ab h with
      | Throw e => (Throw e, st)
      | Return o =>
          let varHeader := mkStruct mem (o + i * 144) in
          (Return (),
           mk (ibtFile st) (sharedMem st) (header st) (diskHeader st)
              (Some (default [] (varHeaders st) ++ [varHeader]))
              (<[VarHeader.name ab varHeader := varHeader]> (varHeadersDict st))
              (varHeadersNames st))
      end
  end.

(** [getVarHeaders()]: the result and the reader afterwards. *)
Definition getVarHeaders (ab : bytes) (st : t) : outcome (list VarHeader.t) * t :=
  match varHeaders st, header st, sharedMem st with
  | None, Some h, Some mem =>
      let st0 := mk (ibtFile st) (sharedMem st) (header st) (diskHeader st)
                    (Some []) ∅ (varHeadersNames st) in
      match Header.numVars ab h with
      | Throw e => (Throw e, st0)
      | Return n =>
          match foldl (getVarHeaders_step ab h mem) (Return (), st0) (seqZ 0 n) with
          | (Throw e, st1) => (Throw e, st1)
          | (Return _, st1) => (Return (default [] (varHeaders st1)), st1)
          end
      end
  | _, _, _ => (Return (default [] (varHeaders st)), st)
  end.

(** [get varHeadersNamesList()] *)
Definition varHeadersNamesList (ab : bytes) (st : t)
  : outcome (option (list string)) * t :=
  match header st with
  | None => (Return None, st)
  | Some _ =>
      match varHeadersNames st with
      | Some names => (Return (Some names), st)
      | None =>
          match getVarHeaders ab st with
          | (Throw e, st1) => (Throw e, st1)
          | (Return hs, st1) =>
              let names := map (VarHeader.name ab) hs in
              (Return (Some names),
               mk (ibtFile st1) (sharedMem st1) (header st1) (diskHeader st1)
                  (varHeaders st1) (varHeadersDict st1) (Some names))
          end
      end
  end.

(** [get varHeaderBufferTick()] *)
Definition varHeaderBufferTick (ab : bytes) (st : t) : outcome (option Z) :=
  match header st with
  | None => Return None
  | Some h =>
      bufs ← Header.varBuf ab h;
      match bufs !! 0%nat with
      | None => Return None
      | Some _ =>
          bufs' ← Header.varBuf ab h;
          match bufs' !! 0%nat with
          | None => Throw TypeError
          | Some vb => Some <$> VarBuffer.tickCount ab vb
          end
      end
  end.

(** [get(index, key)] *)
Definition get (ab : bytes) (st : t) (index : Z) (key : string) : outcome value :=
  match header st, diskHeader st, sharedMem st with
  | Some h, Some dh, Some _ =>
      if index <? 0 then Return VNull
      else
        n ← DiskSubHeader.sessionRecordCount ab dh;
        if n <=? index then Return VNull
        else
          match varHeadersDict st !! key with
          | None => Return VNull
          | Some varHeader =>
              ty ← VarHeader.type ab varHeader;
              let typeChar := typeChar_of ty in
              o ← VarHeader.offset ab varHeader;
              bufs ← Header.varBuf ab h;
              match bufs !! 0%nat with
              | None => Throw TypeError
              | Some vb0 =>
                  bo ← VarBuffer._bufOffset ab vb0;
                  bl ← Header.bufLen ab h;
                  let varOffset := o + bo + index * bl in
                  c ← VarHeader.count ab varHeader;
                  unpackValues ab st varOffset typeChar c
              end
          end
  | _, _, _ => Return VNull
  end.

(** [operator_getitem(key)] *)
Definition operator_getitem (ab : bytes) (st : t) (key : string) : outcome value :=
  match diskHeader st with
  | None => Return VNull
  | Some dh =>
      n ← DiskSubHeader.sessionRecordCount ab dh;
      get ab st (n - 1) key
  end.

(** [getAll(key)]; the loop bound [sessionRecordCount] reads the same bytes
    before every iteration and is read once, at loop entry. *)
Definition getAll (ab : bytes) (st : t) (key : string) : outcome value :=
  match header st, diskHeader st, sharedMem st with
  | Some h, Some dh, Some _ =>
      match varHeadersDict st !! key with
      | None => Return VNull
      | Some varHeader =>
          ty ← VarHeader.type ab varHeader;
          let typeChar := typeChar_of ty in
          bufLen ← Header.bufLen ab h;
          o ← VarHeader.offset ab varHeader;
          bufs ← Header.varBuf ab h;
          match bufs !! 0%nat with
          | None => Throw TypeError
          | Some vb0 =>
              bo ← VarBuffer._bufOffset ab vb0;
              let varOffset := o + bo in
              n ← DiskSubHeader.sessionRecordCount ab dh;
              VArray <$> mapM (fun i =>
                                 c ← VarHeader.count ab varHeader;
                                 unpackValues ab st (varOffset + i * bufLen) typeChar c)
                              (seqZ 0 n)
          end
      end
  | _, _, _ => Return VNull
  end.
End IBT.

(** ** utils.ts *)

Definition nl : ascii := "010"%char.
Definition cr : ascii := "013"%char.
Definition dquote : ascii := "034"%char.
Definition backslash : ascii := "092"%char.

(** One turn of the inner loop of [translateYamlData]:
    [if (buffer[i] === from) buffer[i] = to]. *)
Definition translate_step (from to : Z) (buffer : bytes) (i : nat) : bytes :=
  match buffer !! i with
  | Some b => if byteZ b =? from then <[i := byte_of_Z to]> buffer else buffer
  | None => buffer
  end.

Definition translate_entry (buffer : bytes) (entry : Z * Z) : bytes :=
  foldl (translate_step (fst entry) (snd entry)) buffer (seq 0 (length buffer)).

(** [translateYamlData(data)]; [data] is what the argument Buffer shows, and
    the function works on its own copy ([Buffer.from(data)]). *)
Definition translateYamlData (data : bytes) : string :=
  let buffer := foldl translate_entry data YAML_TRANSLATER in
  let nullIndex := indexOf buffer x00 in
  let buffer := if nullIndex =? -1 then buffer else bytes_slice buffer 0 nullIndex in
  latin1 buffer.

(** The inner comparison loop of [extractYamlSection]: does [pat] stand at
    position [i] of [mem]? *)
Definition matches_at (mem pat : bytes) (i : Z) : bool :=
  forallb (fun j => bool_decide (index mem (i + Z.of_nat j) = pat !! j))
          (seq 0 (length pat)).

(** [for (i = lo; lo + n > i; i++) if (found(i)) { result = i; break; }] *)
Fixpoint scan (found : Z -> bool) (i : Z) (n : nat) : option Z :=
  match n with
  | O => None
  | S n' => if found i then Some i else scan found (i + 1) n'
  end.

Definition first_match (mem pat : bytes) (lo hi : Z) : option Z :=
  scan (matches_at mem pat) lo (Z.to_nat (hi - lo)).

Definition section_header (sectionName : string) : bytes :=
  utf8 (String nl (sectionName ++ String ":" (String nl EmptyString))).

Definition section_end : bytes := utf8 (String nl (String nl EmptyString)).

(** [extractYamlSection(sharedMem, offset, len, sectionName)] *)
Definition extractYamlSection (ab : bytes) (sharedMem : Buffer)
    (offset len : Z) (sectionName : string) : option Buffer :=
  let mem := contents ab sharedMem in
  let start := offset in
  let end_ := start + len in
  let searchBuffer := section_header sectionName in
  match first_match mem searchBuffer start (end_ - Z.of_nat (length searchBuffer)) with
  | None => None
  | Some i =>
      let matchStart := i + 1 in
      let endBuffer := section_end in
      let matchEnd :=
        match first_match mem endBuffer (matchStart + 1)
                          (end_ - Z.of_nat (length endBuffer)) with
        | Some j => j
        | None => end_
        end in
      Some (Buffer_slice sharedMem matchStart matchEnd)
  end.

(** *** The textual repairs of [parseIRSDKYaml] *)

(** [/[\x00-\x08\x0B-\x0C\x0E-\x1F\x7F]/] *)
Definition is_stripped (c : ascii) : bool :=
  let n := Z.of_N (N_of_ascii c) in
  (n <=? 8) || ((11 <=? n) && (n <=? 12)) || ((14 <=? n) && (n <=? 31)) || (n =? 127).

Fixpoint strip_controls (s : string) : string :=
  match s with
  | EmptyString => EmptyString
  | String c rest =>
      if is_stripped c then strip_controls rest else String c (strip_controls rest)
  end.

(** What [.] does not match, among code units below 256. *)
Definition is_line_terminator (c : ascii) : bool :=
  bool_decide (c = nl) || bool_decide (c = cr).

(** [\w] *)
Definition is_word (c : ascii) : bool :=
  let n := Z.of_N (N_of_ascii c) in
  ((48 <=? n) && (n <=? 57)) || ((65 <=? n) && (n <=? 90))
  || ((97 <=? n) && (n <=? 122)) || (n =? 95).

(** A global replace of [(group1)(rest of the line)] by group 1, a double
    quote, the escaped rest of the line and a double quote: [start s] is the
    length of group 1 when a match starts at the head of [s]. *)
Inductive rstate : Type := Scan | Copy (k : nat) | Val.

Fixpoint requote (start : string -> option nat) (esc : ascii -> string)
    (st : rstate) (s : string) : string :=
  match s with
  | EmptyString =>
      match st with
      | Val => String dquote EmptyString
      | _ => EmptyString
      end
  | String c rest =>
      match st with
      | Copy (S (S k)) => String c (requote start esc (Copy (S k)) rest)
      | Copy _ => String c (String dquote (requote start esc Val rest))
      | Val =>
          if is_line_terminator c
          then String dquote (String c (requote start esc Scan rest))
          else esc c ++ requote start esc Val rest
      | Scan =>
          match start s with
          | Some (S (S k)) => String c (requote start esc (Copy (S k)) rest)
          | Some 1%nat => String c (String dquote (requote start esc Val rest))
          | _ => String c (requote start esc Scan rest)
          end
      end
  end.

(** [(?:DriverSetupName|UserName|TeamName|AbbrevName|Initials): ] *)
Definition quoted_fields : list string :=
  ["DriverSetupName: "; "UserName: "; "TeamName: "; "AbbrevName: "; "Initials: "]%string.

Definition field_start (s : string) : option nat :=
  String.length <$> List.find (fun p => String.prefix p s) quoted_fields.

(** The replace of the callback, one character at a time: a backslash goes
    before a double quote, a backslash and a newline. *)
Definition escape_char (c : ascii) : string :=
  if bool_decide (c = dquote) || bool_decide (c = backslash) || bool_decide (c = nl)
  then String backslash (String c EmptyString)
  else String c EmptyString.

(** [(\w+: )] followed by a comma: the word run at the head of [s]. *)
Fixpoint word_then_comma (s : string) : option nat :=
  match s with
  | String c rest =>
      if is_word c then
        match word_then_comma rest with
        | Some k => Some (S k)
        | None =>
            if String.prefix ": ," rest then Some 3%nat else None
        end
      else None
  | EmptyString => None
  end.

Definition no_escape (c : ascii) : string := String c EmptyString.

Definition clean_yaml (yamlStr : string) : string :=
  let cleanStr := strip_controls yamlStr in
  let cleanStr := requote field_start escape_char Scan cleanStr in
  requote word_then_comma no_escape Scan cleanStr.

Section ParseYaml.
(** js-yaml is an external collaborator: [yaml_load] is its [load], which
    returns a document or throws. *)
Variable Y : Type.
Variable yaml_load : string -> outcome Y.

(** [parseIRSDKYaml(yamlStr)]: [None] is the [null] of the catch branch
    (which also logs to the console). *)
Definition parseIRSDKYaml (yamlStr : string) : outcome (option Y) :=
  let cleanStr := clean_yaml yamlStr in
  match yaml_load cleanStr with
  | Return doc => Return (Some doc)
  | Throw _ => Return None
  end.
End ParseYaml.

(** ** irsdk.ts: the live telemetry read path *)

(** [Array.prototype.sort] is stable; with the comparator
    [(a, b) => b.tickCount - a.tickCount] the result is the stable sort by
    descending tick.  [insert_desc] puts an element in front of an already
    sorted tail of later elements. *)
Fixpoint insert_desc {A} (x : Z * A) (l : list (Z * A)) : list (Z * A) :=
  match l with
  | [] => [x]
  | y :: rest => if fst y <=? fst x then x :: l else y :: insert_desc x rest
  end.

Definition sort_desc {A} (l : list (Z * A)) : list (Z * A) :=
  foldr insert_desc [] l.

(** The order of the sorted list: ticks do not increase. *)
Definition desc_order {A} (a b : Z * A) : Prop := b.1 <= a.1.

(** [[...bufs].sort((a, b) => b.tickCount - a.tickCount)]: with fewer than
    two elements the comparator never runs and nothing is read. *)
Definition sort_by_tick (ab : bytes) (bufs : list VarBuffer.t)
  : outcome (list VarBuffer.t) :=
  match bufs with
  | [] | [_] => Return bufs
  | _ =>
      ticks ← mapM (VarBuffer.tickCount ab) bufs;
      Return (map snd (sort_desc (zip ticks bufs)))
  end.

Module IRSDK.
Record t : Type := mk {
  isInitialized : bool;
  sharedMem : option Buffer;
  header : option Header.t;
  varHeaders : option (list VarHeader.t);
  varHeadersDict : gmap string VarHeader.t;
  varHeadersNames : option (list string);
  varBufferLatest : option VarBuffer.t;
  testFile : option string
}.

Definition new : t := mk false None None None ∅ None None None.

Definition set_varBufferLatest (v : option VarBuffer.t) (st : t) : t :=
  mk (isInitialized st) (sharedMem st) (header st) (varHeaders st)
     (varHeadersDict st) (varHeadersNames st) v (testFile st).

(** [startup(testFile)], the branch that reads the region from a dump
    file; [ab] is the store the region Buffer lies in (the file's bytes
    when the region is read by this call).  A throwing header read is
    caught and the call answers [false]. *)
Definition startup (testFilePath : string) (ab : bytes) (st : t) : bool * t :=
  let '(mem, file) :=
    match sharedMem st with
    | Some m => (m, testFile st)
    | None => (whole ab, Some testFilePath)
    end in
  let h := mkStruct mem 0 in
  let st1 := mk (isInitialized st) (Some mem) (Some h) (varHeaders st)
                (varHeadersDict st) (varHeadersNames st)
                (varBufferLatest st) file in
  match (v ← Header.version ab h;
         if 1 <=? v
         then bufs ← Header.varBuf ab h;
              Return (bool_decide (0 < length bufs)%nat)
         else Return false) with
  | Throw _ => (false, st1)
  | Return ok =>
      (ok, mk ok (Some mem) (Some h) (varHeaders st) (varHeadersDict st)
              (varHeadersNames st) (varBufferLatest st) file)
  end.

Definition getVarHeaders_step (ab : bytes) (h : Header.t) (mem : Buffer)
    (acc : outcome unit * t) (i : Z) : outcome unit * t :=
  match acc with
  | (Throw e, st) => (Throw e, st)
  | (Return _, st) =>
      match Header.varHeaderOffset ab h with
      | Throw e => (Throw e, st)
      | Return o =>
          let varHeader := mkStruct mem (o + i * 144) in
          (Return (),
           mk (isInitialized st) (sharedMem st) (header st)
              (Some (default [] (varHeaders st) ++ [varHeader]))
              (<[VarHeader.name ab varHeader := varHeader]> (varHeadersDict st))
              (varHeadersNames st) (varBufferLatest st) (testFile st))
      end
  end.

Definition getVarHeaders (ab : bytes) (st : t) : outcome (list VarHeader.t) * t :=
  match varHeaders st, header st, sharedMem st with
  | None, Some h, Some mem =>
      let st0 := mk (isInitialized st) (sharedMem st) (header st) (Some []) ∅
                    (varHeadersNames st) (varBufferLatest st) (testFile st) in
      match Header.numVars ab h with
      | Throw e => (Throw e, st0)
      | Return n =>
          match foldl (getVarHeaders_step ab h mem) (Return (), st0) (seqZ 0 n) with
          | (Throw e, st1) => (Throw e, st1)
          | (Return _, st1) => (Return (default [] (varHeaders st1)), st1)
          end
      end
  | _, _, _ => (Return (default [] (varHeaders st)), st)
  end.

(** [get varHeadersNamesList()] *)
Definition varHeadersNamesList (ab : bytes) (st : t) : outcome (list string) * t :=
  match varHeadersNames st, header st with
  | None, Some _ =>
      match getVarHeaders ab st with
      | (Throw e, st1) => (Throw e, st1)
      | (Return hs, st1) =>
          let names := map (VarHeader.name ab) hs in
          (Return names,
           mk (isInitialized st1) (sharedMem st1) (header st1) (varHeaders st1)
              (varHeadersDict st1) (Some names) (varBufferLatest st1) (testFile st1))
      end
  | _, _ => (Return (default [] (varHeadersNames st)), st)
  end.

(** [getVarBufferLatest()]: the frozen buffer when there is one, otherwise
    the second entry of the buffers sorted by descending tick, or the only
    entry.  [None] is [null] or [undefined]. *)
Definition getVarBufferLatest (ab : bytes) (st : t) : outcome (option VarBuffer.t) :=
  match varBufferLatest st with
  | Some vb => Return (Some vb)
  | None =>
      match header st with
      | None => Return None
      | Some h =>
          bufs ← Header.varBuf ab h;
          sorted ← sort_by_tick ab bufs;
          Return (if bool_decide (1 < length sorted)%nat
                  then sorted !! 1%nat else sorted !! 0%nat)
      end
  end.

(** [freezeVarBufferLatest()] *)
Definition unfreezeVarBufferLatest (st : t) : t :=
  match varBufferLatest st with
  | Some _ => set_varBufferLatest None st
  | None => st
  end.

Definition freezeVarBufferLatest (ab : bytes) (st : t) : outcome unit * t :=
  let st := unfreezeVarBufferLatest st in
  match header st with
  | None => (Return (), st)
  | Some h =>
      match (bufs ← Header.varBuf ab h; sort_by_tick ab bufs) with
      | Throw e => (Throw e, st)
      | Return sorted =>
          match sorted !! 0%nat with
          | None => (Throw TypeError, st)
          | Some vb =>
              match VarBuffer.freeze ab vb with
              | Throw e => (Throw e, set_varBufferLatest (Some vb) st)
              | Return vb' => (Return (), set_varBufferLatest (Some vb') st)
              end
          end
      end
  end.

Section Get.
(** The session-information fallback ([getSessionInfo], with its cache
    and the YAML parser) lies outside the telemetry path; [get] hands
    every key that is not a variable to it. *)
Variable getSessionInfo : bytes -> t -> string -> outcome value * t.

(** [get(key)] *)
Definition get (ab : bytes) (st : t) (key : string) : outcome value * t :=
  match isInitialized st, header st with
  | true, Some h =>
      match varHeadersDict st !! key with
      | Some varHeader =>
          (match getVarBufferLatest ab st with
           | Throw e => Throw e
           | Return None => Return VUndefined
           | Return (Some varBufLatest) =>
               let memory := contents ab (VarBuffer.getMemory varBufLatest) in
               bo ← VarBuffer.bufOffset ab varBufLatest;
               o ← VarHeader.offset ab varHeader;
               let offset := bo + o in
               ty ← VarHeader.type ab varHeader;
               let typeChar := typeChar_of ty in
               c ← VarHeader.count ab varHeader;
               if c =? 1 then unpackValue memory offset typeChar
               else
                 VArray <$> mapM (fun i =>
                                    unpackValue memory
                                      (offset + i * getTypeSize typeChar) typeChar)
                                 (seqZ 0 c)
           end, st)
      | None => getSessionInfo ab st key
      end
  | _, _ => (Return VUndefined, st)
  end.
End Get.
End IRSDK.

(** * What the specification says, in its own terms *)

(** ** The six type tags and their values *)

Inductive type_tag : Type :=
| tag_char | tag_bool | tag_int32 | tag_uint32 | tag_float32 | tag_float64.

(** The number a descriptor stores for a tag. *)
Definition tag_code (t : type_tag) : Z :=
  match t with
  | tag_char => 0 | tag_bool => 1 | tag_int32 => 2
  | tag_uint32 => 3 | tag_float32 => 4 | tag_float64 => 5
  end.

Definition typeSize (t : type_tag) : Z :=
  match t with
  | tag_char | tag_bool => 1
  | tag_int32 | tag_uint32 | tag_float32 => 4
  | tag_float64 => 8
  end.

(** The numeric values of the [n] bytes of [mem] from [offset] on. *)
Definition bytes_at (mem : bytes) (offset n : Z) : list Z :=
  byteZ <$> take (Z.to_nat n) (drop (Z.to_nat offset) mem).

(** The value of kind [t] that a run of bytes denotes, least significant
    byte first. *)
Definition decode_le (t : type_tag) (bs : list Z) : value :=
  match t with
  | tag_char => VNum (le_value bs)
  | tag_bool => VBool (negb (le_value bs =? 0))
  | tag_int32 => VNum (toInt32 (le_value bs))
  | tag_uint32 => VNum (le_value bs)
  | tag_float32 => VFloat (decode_ieee 23 8 (le_value bs))
  | tag_float64 => VFloat (decode_ieee 52 11 (le_value bs))
  end.

(** The four bytes of a 32-bit integer, least significant first. *)
Definition le32 (v : Z) : bytes :=
  [byte_of_Z v; byte_of_Z (v / 2 ^ 8); byte_of_Z (v / 2 ^ 16); byte_of_Z (v / 2 ^ 24)].

Definition int32_range (v : Z) : Prop := - 2 ^ 31 <= v < 2 ^ 31.

(** ** Text cleanup *)

Definition substituted (b : byte) : byte :=
  if bool_decide (byteZ b ∈ [0x81; 0x8d; 0x8f; 0x90; 0x9d]) then x20 else b.

Fixpoint until_null (l : bytes) : bytes :=
  match l with
  | [] => []
  | b :: rest => if decide (b = x00) then [] else b :: until_null rest
  end.

(** ** Section extraction *)

(** [pat] stands at position [i] of [mem]. *)
Definition occurs_at (mem pat : bytes) (i : Z) : Prop :=
  0 <= i /\ take (length pat) (drop (Z.to_nat i) mem) = pat.

(** The bytes of [mem] from position [a] up to, not including, [b]. *)
Definition between (mem : bytes) (a b : Z) : bytes :=
  take (Z.to_nat (b - a)) (drop (Z.to_nat a) mem).

(** ** Bulk reads of a replay file *)


(** The reads that do not depend on the record index succeed: the record
    count, the descriptor's type, offset and count, the buffer stride, and
    the data offset of the first buffer descriptor. *)
Definition layout_readable (ab : bytes) (h : Header.t) (dh : DiskSubHeader.t)
    (vh : VarHeader.t) : Prop :=
  returns (DiskSubHeader.sessionRecordCount ab dh) /\
  returns (VarHeader.type ab vh) /\
  returns (VarHeader.offset ab vh) /\
  returns (VarHeader.count ab vh) /\
  returns (Header.bufLen ab h) /\
  (exists nb, Header.numBuf ab h = Return nb /\ 1 <= nb) /\
  returns (getInt ab (mkStruct (_sharedMem h) 48) 4).

(** ** Fabricated regions *)

Definition zeros (n : nat) : bytes := replicate n x00.

Definition fixed_string (s : string) (width : nat) : bytes :=
  take width (list_byte_of_string s ++ zeros width).

Definition descriptor_bytes (type offset count : Z) (name desc unit : string) : bytes :=
  le32 type ++ le32 offset ++ le32 count ++ zeros 4
  ++ fixed_string name 32 ++ fixed_string desc 64 ++ fixed_string unit 32.

(** 10.0 and 12.0 as IEEE-754 single-precision bit patterns. *)
Definition float32_10 : Z := 0x41200000.
Definition float32_12 : Z := 0x41400000.

(** A replay file: one variable [Speed] (float32, offset 0, count 1), one
    buffer descriptor whose data starts at byte 288, stride 4, two records
    holding 10.0 and 12.0. *)
Definition sample_ibt : bytes :=
  (* header: version, status, tickRate, sessionInfoUpdate, sessionInfoLen,
     sessionInfoOffset, numVars, varHeaderOffset, numBuf, bufLen *)
  concat (map le32 [2; 1; 60; 0; 0; 0; 1; 144; 1; 4]) ++ zeros 8
  (* varBuf[0]: tickCount, bufOffset *)
  ++ le32 0 ++ le32 288 ++ zeros 8
  ++ zeros 48
  (* disk sub-header at 112: ..., sessionLapCount, sessionRecordCount *)
  ++ zeros 24 ++ le32 1 ++ le32 2
  (* descriptor table at 144 *)
  ++ descriptor_bytes 4 0 1 "Speed" "GPS vehicle speed" "m/s"
  (* records at 288 *)
  ++ le32 float32_10 ++ le32 float32_12.

(** A live region: two rotating buffers of 64 bytes, the variable [Speed]
    (float32, offset 0, count 1); buffer 0 has tick 5 and holds 10.0,
    buffer 1 has tick 6 and holds 12.0. *)
Definition sample_live : bytes :=
  concat (map le32 [2; 1; 60; 0; 0; 0; 1; 112; 2; 64]) ++ zeros 8
  ++ le32 5 ++ le32 256 ++ zeros 8
  ++ le32 6 ++ le32 320 ++ zeros 8
  ++ zeros 32
  ++ descriptor_bytes 4 0 1 "Speed" "GPS vehicle speed" "m/s"
  ++ le32 float32_10 ++ zeros 60
  ++ le32 float32_12 ++ zeros 60.

(** The text block of the extraction scenario. *)
Definition sample_block : bytes :=
  list_byte_of_string
    (String nl "WeekendInfo:" ++ String nl "  TrackDisplayName: Road Atlanta"
     ++ String nl (String nl (String nl "SessionInfo:"))
     ++ String nl "  Sessions: 1" ++ String nl (String nl ""))%string.

(** ** Calls on a replay reader *)

Inductive call : Type :=
| call_get (index : Z) (key : string)
| call_getAll (key : string)
| call_fileName
| call_varHeadersNamesList.

Inductive answer : Type :=
| ans_value (v : outcome value)
| ans_fileName (s : option string)
| ans_names (names : outcome (option (list string))).

Definition perform (ab : bytes) (c : call) (st : IBT.t) : answer * IBT.t :=
  match c with
  | call_get index key => (ans_value (IBT.get ab st index key), st)
  | call_getAll key => (ans_value (IBT.getAll ab st key), st)
  | call_fileName => (ans_fileName (IBT.fileName st), st)
  | call_varHeadersNamesList =>
      let '(r, st') := IBT.varHeadersNamesList ab st in (ans_names r, st')
  end.

Fixpoint perform_all (ab : bytes) (cs : list call) (st : IBT.t) : list answer :=
  match cs with
  | [] => []
  | c :: rest =>
      let '(a, st') := perform ab c st in a :: perform_all ab rest st'
  end.

(** The answer is [null]. *)
Definition absent (a : answer) : Prop :=
  match a with
  | ans_value v => v = Return VNull
  | ans_fileName s => s = None
  | ans_names names => names = Return None
  end.

(** ** Vocabulary for the textual repairs *)

(** Every character of [s] satisfies [P]. *)
Fixpoint string_all (P : ascii -> bool) (s : string) : bool :=
  match s with
  | EmptyString => true
  | String c rest => P c && string_all P rest
  end.



(** ** utils.ts: the car number of a broadcast *)

(** The white space that [parseInt] skips, among code units below 256. *)
Definition is_js_space (c : ascii) : bool :=
  let n := Z.of_N (N_of_ascii c) in
  ((9 <=? n) && (n <=? 13)) || (n =? 32) || (n =? 160).

Fixpoint skip_space (s : string) : string :=
  match s with
  | String c rest => if is_js_space c then skip_space rest else s
  | EmptyString => s
  end.

Definition digit_of (c : ascii) : option Z :=
  let n := Z.of_N (N_of_ascii c) in
  if (48 <=? n) && (n <=? 57) then Some (n - 48) else None.

(** The longest run of decimal digits at the head of [s], read in base 10
    onto [acc]; [acc] is [None] as long as no digit has been read. *)
Fixpoint parse_digits (acc : option Z) (s : string) : option Z :=
  match s with
  | String c rest =>
      match digit_of c with
      | Some d => parse_digits (Some (10 * default 0 acc + d)) rest
      | None => acc
      end
  | EmptyString => acc
  end.

(** [parseInt(s, 10)]; [None] is NaN.  A number is the integer it holds:
    the result is exact for a digit run below 2^53, and -0 is 0. *)
Definition parseInt10 (s : string) : option Z :=
  let s := skip_space s in
  match s with
  | String c rest =>
      if bool_decide (c = "-"%char) then Z.opp <$> parse_digits None rest
      else if bool_decide (c = "+"%char) then parse_digits None rest
      else parse_digits None s
  | EmptyString => None
  end.

(** [numStr.replace(/^0+/, '')] *)
Fixpoint strip_zeros (s : string) : string :=
  match s with
  | String c rest => if bool_decide (c = "0"%char) then strip_zeros rest else s
  | EmptyString => s
  end.

(** [padCarNumber(num)] for a string [num]; [None] is NaN, which every
    sum with NaN is. *)
Definition padCarNumber (numStr : string) : option Z :=
  let numLen := Z.of_nat (String.length numStr) in
  let zero := numLen - Z.of_nat (String.length (strip_zeros numStr)) in
  let zero := if (0 <? zero) && (numLen =? zero) then zero - 1 else zero in
  parsedNum ← parseInt10 numStr;
  if negb (zero =? 0) then
    let numPlace := if 99 <? parsedNum then 3 else if 9 <? parsedNum then 2 else 1 in
    Some (parsedNum + 1000 * (numPlace + zero))
  else Some parsedNum.

(** *** Car numbers as digit sequences *)

Definition digit_char (d : Z) : ascii := ascii_of_N (Z.to_N (48 + d)).

(** The string that writes the digits [ds], first digit first. *)
Definition numeral (ds : list Z) : string :=
  string_of_list_ascii (digit_char <$> ds).

(** The number the digits [ds] write in base 10. *)
Definition numeral_value (ds : list Z) : Z := foldl (fun a d => 10 * a + d) 0 ds.

Definition digits (ds : list Z) : Prop := Forall (fun d => 0 <= d <= 9) ds.

(** ** irsdk.ts: the words of a broadcast *)

(** [(a | (b << 16)) >>> 0] on integers: the operands of [|] and [<<] go
    through ToInt32, the result of [>>> 0] through ToUint32. *)
Definition js_shl (b k : Z) : Z := toInt32 (Z.shiftl (toInt32 b) (k mod 32)).

Definition js_or (a b : Z) : Z := Z.lor (toInt32 a) (toInt32 b).

Definition toUint32 (z : Z) : Z := z mod 2 ^ 32.

Definition pack_word (a b : Z) : Z := toUint32 (js_or a (js_shl b 16)).

(** The wParam and lParam that [broadcastMsg] hands to
    [SendNotifyMessageW]. *)
Definition broadcast_words (broadcastType var1 var2 var3 : Z) : Z * Z :=
  (pack_word broadcastType var1, pack_word var2 var3).

(** The words of [camSwitchNum(carNumber, group, camera)], when the car
    number has a code; [BroadcastMsg.cam_switch_num] is 1. *)
Definition camSwitchNum_words (carNumber : string) (group camera : Z)
  : option (Z * Z) :=
  code ← padCarNumber carNumber;
  Some (broadcast_words 1 code group camera).

(** * Proofs *)

(** ** Outcomes *)

Lemma mapM_Return {A B} (f : A -> outcome B) (g : A -> B) (l : list A) :
  (forall x, x ∈ l -> f x = Return (g x)) -> mapM f l = Return (map g l).
Proof.
  induction l as [|x l IH]; intros Hf; [done|].
  simpl. rewrite Hf by left. simpl.
  rewrite IH; [done|]. intros y Hy. apply Hf. by right.
Qed.

Lemma mapM_ext {A B} (f g : A -> outcome B) (l : list A) :
  (forall x, x ∈ l -> f x = g x) -> mapM f l = mapM g l.
Proof.
  induction l as [|x l IH]; intros Hf; [done|].
  simpl. rewrite Hf by left. destruct (g x); [|done]. simpl.
  rewrite IH; [done|]. intros y Hy. apply Hf. by right.
Qed.

Lemma mapM_Return_inv {A B} (f : A -> outcome B) (l : list A) (k : list B) :
  mapM f l = Return k ->
  length k = length l /\
  forall i x, l !! i = Some x -> exists y, k !! i = Some y /\ f x = Return y.
Proof.
  revert k. induction l as [|x l IH]; intros k; simpl.
  - intros [= <-]. split; [done|]. intros i x Hx. by rewrite lookup_nil in Hx.
  - destruct (f x) as [y|e] eqn:Hy; [|done]. simpl.
    destruct (mapM f l) as [k'|e] eqn:Hk; [|done]. simpl.
    intros [= <-]. destruct (IH k' eq_refl) as [Hlen Hnth].
    split; [simpl; lia|].
    intros [|i] z; simpl.
    + intros [= <-]. by exists y.
    + apply Hnth.
Qed.

Lemma mapM_returns {A B} (f : A -> outcome B) (l : list A) :
  (forall x, x ∈ l -> returns (f x)) -> returns (mapM f l).
Proof.
  induction l as [|x l IH]; intros Hf; [by eexists|].
  simpl. destruct (Hf x) as [y ->]; [by left|]. simpl.
  destruct IH as [k ->]; [|by eexists].
  intros z Hz. apply Hf. by right.
Qed.

(** ** Bytes, views and reads *)

Lemma byteZ_range (b : byte) : 0 <= byteZ b < 256.
Proof. unfold byteZ. pose proof (Byte.to_N_bounded b). lia. Qed.

Lemma index_spec (mem : bytes) (i : Z) :
  index mem i = if bool_decide (0 <= i < Z.of_nat (length mem))
                then mem !! Z.to_nat i else None.
Proof.
  unfold index. case_bool_decide as H; destruct (Z.ltb_spec i 0); try lia; try done.
  apply lookup_ge_None. lia.
Qed.

Lemma index_is_Some (mem : bytes) (i : Z) :
  is_Some (index mem i) <-> 0 <= i < Z.of_nat (length mem).
Proof.
  rewrite index_spec. case_bool_decide as H.
  - split; [done|]. intros _. apply lookup_lt_is_Some. lia.
  - split; [by intros [? ?]|done].
Qed.

Lemma index_drop (mem : bytes) (off j : Z) :
  0 <= off -> 0 <= j ->
  index mem (off + j) = drop (Z.to_nat off) mem !! Z.to_nat j.
Proof.
  intros Ho Hj. unfold index. destruct (Z.ltb_spec (off + j) 0); [lia|].
  rewrite lookup_drop. f_equal. lia.
Qed.

Lemma getValue_int (ab : bytes) (s : IRSDKStruct) (offset : Z) :
  getValue ab s offset "i" = VNum <$> getInt ab s offset.
Proof. reflexivity. Qed.

Lemma contents_whole (ab : bytes) : contents ab (whole ab) = ab.
Proof. unfold contents, whole. simpl. by rewrite drop_0, firstn_all. Qed.

Lemma bytes_at_lookup (mem : bytes) (off n : Z) (j : nat) :
  0 <= off -> (j < Z.to_nat n)%nat ->
  bytes_at mem off n !! j = byteZ <$> index mem (off + Z.of_nat j).
Proof.
  intros Ho Hj. unfold bytes_at. rewrite list_lookup_fmap.
  rewrite lookup_take_lt by done.
  rewrite index_drop by lia. by rewrite Nat2Z.id.
Qed.

Lemma bytes_at_length (mem : bytes) (off n : Z) :
  0 <= off -> 0 <= n -> off + n <= Z.of_nat (length mem) ->
  length (bytes_at mem off n) = Z.to_nat n.
Proof.
  intros. unfold bytes_at. rewrite length_fmap, length_take, length_drop. lia.
Qed.

Lemma index_drop_at (mem : bytes) (off k : Z) (j : nat) :
  0 <= off -> k = off + Z.of_nat j ->
  index mem k = drop (Z.to_nat off) mem !! j.
Proof. intros Ho ->. rewrite index_drop by lia. by rewrite Nat2Z.id. Qed.

Lemma readUInt8_in_bounds (mem : bytes) (off : Z) :
  0 <= off -> off + 1 <= Z.of_nat (length mem) ->
  readUInt8 mem off = Return (le_value (bytes_at mem off 1)).
Proof.
  intros Ho Hl. unfold readUInt8, bytes_at.
  rewrite (index_drop_at mem off off 0) by lia.
  destruct (drop (Z.to_nat off) mem) as [|a d] eqn:Hd.
  { apply (f_equal length) in Hd. rewrite length_drop in Hd. simpl in Hd. lia. }
  simpl. f_equal. lia.
Qed.

Lemma read4_in_bounds (mem : bytes) (off : Z) :
  0 <= off -> off + 4 <= Z.of_nat (length mem) ->
  exists b0 b1 b2 b3,
    bytes_at mem off 4 = [b0; b1; b2; b3] /\
    read4 mem off = Return (b0, b1, b2, b3) /\
    0 <= b0 < 256 /\ 0 <= b1 < 256 /\ 0 <= b2 < 256 /\ 0 <= b3 < 256.
Proof.
  intros Ho Hl. unfold read4, bytes_at.
  rewrite (index_drop_at mem off off 0), (index_drop_at mem off (off + 3) 3),
    (index_drop_at mem off (off + 1) 1), (index_drop_at mem off (off + 2) 2) by lia.
  destruct (drop (Z.to_nat off) mem) as [|a0 [|a1 [|a2 [|a3 d]]]] eqn:Hd;
    try (apply (f_equal length) in Hd; rewrite length_drop in Hd; simpl in Hd; lia).
  exists (byteZ a0), (byteZ a1), (byteZ a2), (byteZ a3). simpl.
  repeat split; try done; apply byteZ_range.
Qed.

Lemma read4_out_of_bounds (mem : bytes) (off : Z) :
  ~ (0 <= off /\ off + 4 <= Z.of_nat (length mem)) ->
  read4 mem off = Throw RangeError.
Proof.
  intros Hn. unfold read4.
  destruct (index mem off) as [a|] eqn:Ha; [|done].
  destruct (index mem (off + 3)) as [b|] eqn:Hb; [|done].
  assert (is_Some (index mem off)) as H1 by eauto.
  assert (is_Some (index mem (off + 3))) as H2 by eauto.
  apply index_is_Some in H1, H2. lia.
Qed.

Lemma read8_in_bounds (mem : bytes) (off : Z) :
  0 <= off -> off + 8 <= Z.of_nat (length mem) ->
  read8 mem off = Return (bytes_at mem off 8).
Proof.
  intros Ho Hl. unfold read8.
  destruct (index mem off) as [a|] eqn:Ha.
  2:{ assert (is_Some (index mem off)) as [? ?] by (apply index_is_Some; lia). congruence. }
  destruct (index mem (off + 7)) as [b|] eqn:Hb.
  2:{ assert (is_Some (index mem (off + 7))) as [? ?] by (apply index_is_Some; lia). congruence. }
  rewrite (mapM_Return _ (fun j => default 0 (bytes_at mem off 8 !! Z.to_nat j))).
  - f_equal. apply list_eq. intros i.
    destruct (decide (i < 8)%nat) as [Hi|Hi].
    + rewrite list_lookup_fmap, lookup_seqZ_lt by lia. simpl.
      replace (Z.to_nat (0 + Z.of_nat i)) with i by lia.
      destruct (bytes_at mem off 8 !! i) eqn:E; [done|].
      apply lookup_ge_None in E. rewrite bytes_at_length in E by lia. lia.
    + rewrite !lookup_ge_None_2; [done| |].
      * rewrite bytes_at_length by lia. lia.
      * rewrite length_fmap, length_seqZ. lia.
  - intros j Hj. apply elem_of_seqZ in Hj.
    rewrite (bytes_at_lookup mem off 8 (Z.to_nat j)) by lia.
    rewrite Z2Nat.id by lia.
    assert (is_Some (index mem (off + j))) as [v ->] by (apply index_is_Some; lia).
    done.
Qed.

Lemma toInt32_le_value (b0 b1 b2 b3 : Z) :
  0 <= b0 < 256 -> 0 <= b1 < 256 -> 0 <= b2 < 256 -> 0 <= b3 < 256 ->
  b0 + b1 * 2 ^ 8 + b2 * 2 ^ 16 + toInt32 (Z.shiftl b3 24)
  = toInt32 (le_value [b0; b1; b2; b3]).
Proof.
  intros. unfold toInt32, le_value. rewrite Z.shiftl_mul_pow2 by lia.
  change (2 ^ 8) with 256. change (2 ^ 16) with 65536.
  change (2 ^ 24) with 16777216. change (2 ^ 31) with 2147483648.
  change (2 ^ 32) with 4294967296.
  Z.div_mod_to_equations. lia.
Qed.

Lemma le_value_4 (b0 b1 b2 b3 : Z) :
  b0 + b1 * 2 ^ 8 + b2 * 2 ^ 16 + b3 * 2 ^ 24 = le_value [b0; b1; b2; b3].
Proof. unfold le_value. lia. Qed.

Lemma readUInt32LE_in_bounds (mem : bytes) (off : Z) :
  0 <= off -> off + 4 <= Z.of_nat (length mem) ->
  readUInt32LE mem off = Return (le_value (bytes_at mem off 4)).
Proof.
  intros Ho Hl. destruct (read4_in_bounds mem off Ho Hl)
    as (b0 & b1 & b2 & b3 & -> & Hr & ?).
  unfold readUInt32LE. rewrite Hr. simpl. by rewrite le_value_4.
Qed.

Lemma readInt32LE_in_bounds (mem : bytes) (off : Z) :
  0 <= off -> off + 4 <= Z.of_nat (length mem) ->
  readInt32LE mem off = Return (toInt32 (le_value (bytes_at mem off 4))).
Proof.
  intros Ho Hl. destruct (read4_in_bounds mem off Ho Hl)
    as (b0 & b1 & b2 & b3 & -> & Hr & ? & ? & ? & ?).
  unfold readInt32LE. rewrite Hr. simpl. by rewrite toInt32_le_value.
Qed.

Lemma readInt32LE_out_of_bounds (mem : bytes) (off : Z) :
  ~ (0 <= off /\ off + 4 <= Z.of_nat (length mem)) ->
  readInt32LE mem off = Throw RangeError.
Proof. intros H. unfold readInt32LE. by rewrite read4_out_of_bounds. Qed.

Lemma readFloatLE_in_bounds (mem : bytes) (off : Z) :
  0 <= off -> off + 4 <= Z.of_nat (length mem) ->
  readFloatLE mem off = Return (decode_ieee 23 8 (le_value (bytes_at mem off 4))).
Proof.
  intros Ho Hl. destruct (read4_in_bounds mem off Ho Hl)
    as (b0 & b1 & b2 & b3 & -> & Hr & ?).
  unfold readFloatLE. by rewrite Hr.
Qed.

Lemma readDoubleLE_in_bounds (mem : bytes) (off : Z) :
  0 <= off -> off + 8 <= Z.of_nat (length mem) ->
  readDoubleLE mem off = Return (decode_ieee 52 11 (le_value (bytes_at mem off 8))).
Proof.
  intros Ho Hl. unfold readDoubleLE. by rewrite read8_in_bounds.
Qed.

(** A read returns exactly when its bytes lie inside the buffer. *)
Lemma readInt32LE_returns_iff (mem : bytes) (off : Z) :
  returns (readInt32LE mem off) <-> 0 <= off /\ off + 4 <= Z.of_nat (length mem).
Proof.
  split.
  - intros [v Hv].
    destruct (decide (0 <= off /\ off + 4 <= Z.of_nat (length mem))) as [|Hn]; [done|].
    rewrite readInt32LE_out_of_bounds in Hv by done. done.
  - intros [? ?]. rewrite readInt32LE_in_bounds by done. by eexists.
Qed.

(** ** Byte order *)

(** Bit [k] of the value of a run of bytes is bit [k mod 8] of byte [k / 8]:
    the first byte is the least significant. *)
Lemma le_value_testbit (bs : list Z) (k : Z) :
  Forall (fun b => 0 <= b < 256) bs -> 0 <= k ->
  Z.testbit (le_value bs) k
  = Z.testbit (default 0 (bs !! Z.to_nat (k / 8))) (k mod 8).
Proof.
  intros Hbs. revert k. induction Hbs as [|b bs Hb Hbs IH]; intros k Hk.
  - simpl. rewrite ?lookup_nil. simpl. by rewrite ?Z.testbit_0_l.
  - simpl le_value. destruct (Z.lt_ge_cases k 8) as [Hlt|Hge].
    + rewrite (Z.div_small k 8), (Z.mod_small k 8) by lia. simpl.
      rewrite <- (Z.mod_pow2_bits_low (b + 256 * le_value bs) 8 k) by lia.
      f_equal. change (2 ^ 8) with 256.
      replace (b + 256 * le_value bs) with (b + le_value bs * 256) by lia.
      rewrite Z_mod_plus_full. by apply Z.mod_small.
    + replace k with ((k - 8) + 8) at 1 by lia.
      rewrite <- Z.div_pow2_bits by lia. change (2 ^ 8) with 256.
      replace ((b + 256 * le_value bs) / 256) with (le_value bs).
      2:{ replace (b + 256 * le_value bs) with (b + le_value bs * 256) by lia.
          rewrite Z.div_add by lia. rewrite (Z.div_small b 256) by lia. lia. }
      rewrite IH by lia.
      replace (k / 8) with ((k - 8) / 8 + 1).
      2:{ replace k with ((k - 8) + 1 * 8) at 2 by lia.
          by rewrite Z.div_add by lia. }
      replace (k mod 8) with ((k - 8) mod 8).
      2:{ replace k with ((k - 8) + 1 * 8) at 2 by lia.
          by rewrite Z_mod_plus_full. }
      assert (0 <= (k - 8) / 8) by (apply Z.div_pos; lia).
      replace (Z.to_nat ((k - 8) / 8 + 1)) with (S (Z.to_nat ((k - 8) / 8))) by lia.
      done.
Qed.

Lemma bytes_at_range (mem : bytes) (off n : Z) :
  Forall (fun b => 0 <= b < 256) (bytes_at mem off n).
Proof.
  unfold bytes_at. apply Forall_fmap, Forall_forall.
  intros b _. apply byteZ_range.
Qed.

(** ** The value codec *)

Lemma getTypeSize_tag (t : type_tag) :
  getTypeSize (typeChar_of (tag_code t)) = typeSize t.
Proof. by destruct t. Qed.

Lemma unpackValue_in_bounds (mem : bytes) (offset : Z) (t : type_tag) :
  0 <= offset -> offset + typeSize t <= Z.of_nat (length mem) ->
  unpackValue mem offset (typeChar_of (tag_code t))
  = Return (decode_le t (bytes_at mem offset (typeSize t))).
Proof.
  intros Ho Hl. destruct t; simpl in Hl;
    unfold unpackValue, typeChar_of, tag_code, VAR_TYPE_MAP, decode_le, typeSize;
    simpl.
  - by rewrite readUInt8_in_bounds.
  - by rewrite readUInt8_in_bounds.
  - by rewrite readInt32LE_in_bounds.
  - by rewrite readUInt32LE_in_bounds.
  - by rewrite readFloatLE_in_bounds.
  - by rewrite readDoubleLE_in_bounds.
Qed.

Lemma decode_le_scalar (t : type_tag) (bs : list Z) (l : list value) :
  decode_le t bs <> VArray l.
Proof. by destruct t. Qed.

(** C6. For each of the six type tags, the codec decodes at an in-bounds
    offset the value of that kind which the bytes denote least significant
    byte first (bit k of the number read is bit k mod 8 of byte k / 8), with
    element sizes 1 (char, bool), 4 (int32, uint32, float32) and 8
    (float64); an element count of 1 gives that scalar itself, a count
    n > 1 gives the sequence of the n values at offset + i * typeSize. *)
Theorem value_codec_little_endian (mem : bytes) (offset count : Z) (t : type_tag) :
  0 <= offset -> 1 <= count ->
  offset + count * typeSize t <= Z.of_nat (length mem) ->
  let typeChar := typeChar_of (tag_code t) in
  let element := fun i => decode_le t (bytes_at mem (offset + i * typeSize t) (typeSize t)) in
  getTypeSize typeChar = typeSize t /\
  unpackValue mem offset typeChar = Return (element 0) /\
  (forall k, 0 <= k ->
     Z.testbit (le_value (bytes_at mem offset (typeSize t))) k
     = Z.testbit (default 0 (bytes_at mem offset (typeSize t) !! Z.to_nat (k / 8)))
                 (k mod 8)) /\
  (forall l, element 0 <> VArray l) /\
  (count = 1 -> unpackValues mem offset typeChar count = Return (element 0)) /\
  (1 < count ->
   unpackValues mem offset typeChar count
   = Return (VArray (map element (seqZ 0 count))) /\
   length (map element (seqZ 0 count)) = Z.to_nat count).
Proof.
  intros Ho Hc Hl typeChar element.
  assert (0 < typeSize t) as Hs by (destruct t; simpl; lia).
  assert (unpackValue mem offset typeChar = Return (element 0)) as H0.
  { unfold element. rewrite Z.mul_0_l, Z.add_0_r.
    apply unpackValue_in_bounds; [done|nia]. }
  split; [apply getTypeSize_tag|].
  split; [done|].
  split; [intros k Hk; apply le_value_testbit; [apply bytes_at_range|done]|].
  split; [intros l; apply decode_le_scalar|].
  split.
  - intros ->. unfold unpackValues. simpl. done.
  - intros Hgt. split.
    + unfold unpackValues. destruct (Z.eqb_spec count 1) as [|_]; [lia|].
      rewrite (mapM_Return _ element); [done|].
      intros i Hi. apply elem_of_seqZ in Hi.
      subst typeChar. rewrite getTypeSize_tag.
      apply unpackValue_in_bounds; nia.
    + rewrite length_map, length_seqZ. done.
Qed.

Lemma value_codec_little_endian_witness :
  unpackValues (le32 7 ++ le32 (-2) ++ le32 9) 4 (typeChar_of (tag_code tag_int32)) 2
  = Return (VArray [VNum (-2); VNum 9]).
Proof.
  destruct (value_codec_little_endian (le32 7 ++ le32 (-2) ++ le32 9) 4 2 tag_int32)
    as (_ & _ & _ & _ & _ & H); [lia | lia | simpl; lia |].
  destruct H as [H _]; [lia|]. rewrite H. reflexivity.
Defined.

Lemma index_None_outside (mem : bytes) (i : Z) :
  ~ (0 <= i < Z.of_nat (length mem)) -> index mem i = None.
Proof.
  intros Hn. destruct (index mem i) eqn:E; [|done].
  assert (is_Some (index mem i)) as H by eauto. apply index_is_Some in H. lia.
Qed.

Lemma readUInt8_out_of_bounds (mem : bytes) (off : Z) :
  ~ (0 <= off /\ off + 1 <= Z.of_nat (length mem)) ->
  readUInt8 mem off = Throw RangeError.
Proof. intros Hn. unfold readUInt8. rewrite index_None_outside; [done|lia]. Qed.

Lemma read8_out_of_bounds (mem : bytes) (off : Z) :
  ~ (0 <= off /\ off + 8 <= Z.of_nat (length mem)) ->
  read8 mem off = Throw RangeError.
Proof.
  intros Hn. unfold read8.
  destruct (decide (0 <= off < Z.of_nat (length mem))) as [Hin|Hout].
  - rewrite (index_None_outside mem (off + 7)) by lia. by destruct (index mem off).
  - by rewrite index_None_outside.
Qed.

(** The codec rejects a read that does not lie inside the region. *)
Lemma unpackValue_out_of_bounds (mem : bytes) (offset : Z) (t : type_tag) :
  ~ (0 <= offset /\ offset + typeSize t <= Z.of_nat (length mem)) ->
  unpackValue mem offset (typeChar_of (tag_code t)) = Throw RangeError.
Proof.
  intros Hn. destruct t; simpl in Hn;
    unfold unpackValue, typeChar_of, tag_code, VAR_TYPE_MAP; simpl.
  - by rewrite readUInt8_out_of_bounds.
  - by rewrite readUInt8_out_of_bounds.
  - by rewrite readInt32LE_out_of_bounds.
  - unfold readUInt32LE. by rewrite read4_out_of_bounds.
  - unfold readFloatLE. by rewrite read4_out_of_bounds.
  - unfold readDoubleLE. by rewrite read8_out_of_bounds.
Qed.

(** ** Text cleanup *)

Lemma translate_steps_prefix (from to : Z) (buffer : bytes) (k : nat) :
  (k <= length buffer)%nat ->
  foldl (translate_step from to) buffer (seq 0 k)
  = map (fun b => if byteZ b =? from then byte_of_Z to else b) (take k buffer)
    ++ drop k buffer.
Proof.
  induction k as [|k IH]; intros Hk.
  - simpl. by rewrite drop_0.
  - rewrite seq_S, foldl_app, IH by lia. simpl.
    destruct (lookup_lt_is_Some_2 buffer k) as [x Hx]; [lia|].
    rewrite (take_S_r _ _ _ Hx), map_app. simpl.
    unfold translate_step.
    assert (length (map (fun b => if byteZ b =? from then byte_of_Z to else b)
                        (take k buffer)) = k) as Hlen.
    { rewrite length_map, length_take. lia. }
    rewrite lookup_app_r by lia. rewrite Hlen, Nat.sub_diag.
    rewrite (drop_S _ _ _ Hx). simpl.
    destruct (byteZ x =? from).
    + rewrite insert_app_r_alt by lia. rewrite Hlen, Nat.sub_diag. simpl.
      by rewrite <- app_assoc.
    + by rewrite <- app_assoc.
Qed.

Lemma translate_entry_map (buffer : bytes) (entry : Z * Z) :
  translate_entry buffer entry
  = map (fun b => if byteZ b =? fst entry then byte_of_Z (snd entry) else b) buffer.
Proof.
  unfold translate_entry. rewrite translate_steps_prefix by done.
  by rewrite firstn_all, drop_all, app_nil_r.
Qed.

Lemma translate_table_substituted (data : bytes) :
  foldl translate_entry data YAML_TRANSLATER = map substituted data.
Proof.
  unfold YAML_TRANSLATER. simpl. rewrite !translate_entry_map, !map_map.
  apply map_ext. intros b. destruct b; reflexivity.
Qed.

Lemma indexOf_from_null (l : bytes) (i : Z) :
  0 <= i ->
  (indexOf_from l x00 i = -1 /\ until_null l = l) \/
  (exists k, indexOf_from l x00 i = i + Z.of_nat k /\ (k < length l)%nat /\
             until_null l = take k l).
Proof.
  revert i. induction l as [|b l IH]; intros i Hi; simpl.
  - by left.
  - destruct (decide (b = x00)) as [->|Hb].
    + right. exists 0%nat. simpl. split; [lia|]. split; [lia|done].
    + destruct (IH (i + 1)) as [[H1 H2]|(k & H1 & H2 & H3)]; [lia| |].
      * left. by rewrite H1, H2.
      * right. exists (S k). simpl. rewrite H1, H3. split; [lia|]. split; [lia|done].
Qed.

Lemma truncate_at_null (l : bytes) :
  (if indexOf l x00 =? -1 then l else bytes_slice l 0 (indexOf l x00))
  = until_null l.
Proof.
  unfold indexOf.
  destruct (indexOf_from_null l 0) as [[H1 H2]|(k & H1 & H2 & H3)]; [lia| |].
  - by rewrite H1, H2.
  - rewrite H1, H3. destruct (Z.eqb_spec (0 + Z.of_nat k) (-1)) as [|_]; [lia|].
    unfold bytes_slice, adjustOffset. simpl.
    destruct k as [|k]; [done|].
    replace (0 + Z.of_nat (S k) =? 0) with false by (symmetry; apply Z.eqb_neq; lia).
    replace (0 + Z.of_nat (S k) <? 0) with false by (symmetry; apply Z.ltb_ge; lia).
    replace (0 + Z.of_nat (S k) <? Z.of_nat (length l)) with true
      by (symmetry; apply Z.ltb_lt; lia).
    replace (0 <? 0 + Z.of_nat (S k)) with true by (symmetry; apply Z.ltb_lt; lia).
    rewrite drop_0. f_equal. lia.
Qed.

Lemma string_of_list_byte_length (l : bytes) :
  String.length (string_of_list_byte l) = length l.
Proof. induction l as [|b l IH]; simpl; [done|]. by rewrite <- IH. Qed.

Lemma string_of_list_byte_get (l : bytes) (i : nat) :
  String.get i (string_of_list_byte l) = ascii_of_byte <$> l !! i.
Proof.
  revert i. induction l as [|b l IH]; intros i; simpl.
  - by destruct i.
  - destruct i as [|i]; [done|]. apply IH.
Qed.

(** C7. [translateYamlData] replaces every byte of the substitution table
    {0x81, 0x8d, 0x8f, 0x90, 0x9d} by a space, cuts the text at the first
    null byte, and turns every remaining byte into the one code unit of the
    same value: the result has one character per kept byte. *)
Theorem translateYamlData_spec (data : bytes) :
  let kept := until_null (map substituted data) in
  translateYamlData data = string_of_list_byte kept /\
  String.length (translateYamlData data) = length kept /\
  (forall i, String.get i (translateYamlData data) = ascii_of_byte <$> kept !! i) /\
  (forall b, b ∈ kept -> b <> x00 /\ byteZ b ∉ [0x81; 0x8d; 0x8f; 0x90; 0x9d]).
Proof.
  intros kept.
  assert (translateYamlData data = string_of_list_byte kept) as E.
  { unfold translateYamlData, latin1, kept.
    by rewrite translate_table_substituted, truncate_at_null. }
  rewrite E. split; [done|].
  split; [apply string_of_list_byte_length|].
  split; [intros i; apply string_of_list_byte_get|].
  intros b Hb. subst kept.
  assert (forall l, b ∈ until_null l -> b <> x00 /\ b ∈ l) as Hu.
  { induction l as [|c l IH]; simpl; [by intros ?%elem_of_nil|].
    destruct (decide (c = x00)); [by intros ?%elem_of_nil|].
    intros [->|H]%elem_of_cons; [split; [done|by left]|].
    destruct (IH H). split; [done|by right]. }
  destruct (Hu _ Hb) as [Hn Hin]. split; [done|].
  apply list_elem_of_fmap in Hin as (c & -> & _).
  destruct c; apply (bool_decide_unpack _); vm_compute; exact I.
Qed.

(** ** [parseIRSDKYaml] *)

(** C8. Whatever the YAML parser does on the cleaned text, [parseIRSDKYaml]
    returns: a parser exception becomes the [null] result, and a parsed
    document is handed back as it is. *)
Theorem parseIRSDKYaml_never_throws (Y : Type) (yaml_load : string -> outcome Y)
    (yamlStr : string) :
  returns (parseIRSDKYaml Y yaml_load yamlStr) /\
  (forall e, yaml_load (clean_yaml yamlStr) = Throw e ->
             parseIRSDKYaml Y yaml_load yamlStr = Return None) /\
  (forall doc, yaml_load (clean_yaml yamlStr) = Return doc ->
               parseIRSDKYaml Y yaml_load yamlStr = Return (Some doc)).
Proof.
  unfold parseIRSDKYaml.
  destruct (yaml_load (clean_yaml yamlStr)) as [doc|e].
  - split; [by eexists|]. split; [done|]. by intros ? [= ->].
  - split; [by eexists|]. split; [done|]. done.
Qed.

Lemma parseIRSDKYaml_never_throws_witness :
  parseIRSDKYaml unit (fun _ => Throw YAMLException) "WeekendInfo: [" = Return None.
Proof.
  apply (proj1 (proj2 (parseIRSDKYaml_never_throws unit (fun _ => Throw YAMLException)
                         "WeekendInfo: [")) YAMLException).
  reflexivity.
Defined.

(** ** Closing a replay reader *)

Lemma perform_closed (ab : bytes) (c : call) :
  absent (perform ab c IBT.new).1 /\ (perform ab c IBT.new).2 = IBT.new.
Proof. by destruct c. Qed.

(** C10. [close] clears the whole reader (stream, backing memory, header,
    disk sub-header, descriptor list, name dictionary, name list), and every
    later [get], [getAll], [fileName] and [varHeadersNamesList] answers
    [null], for every index and key, in whatever order they are called. *)
Theorem close_resets_reader (ab : bytes) (st : IBT.t) :
  IBT.close st = IBT.new /\
  IBT.ibtFile (IBT.close st) = None /\
  IBT.sharedMem (IBT.close st) = None /\
  IBT.header (IBT.close st) = None /\
  IBT.diskHeader (IBT.close st) = None /\
  IBT.varHeaders (IBT.close st) = None /\
  IBT.varHeadersDict (IBT.close st) = ∅ /\
  IBT.varHeadersNames (IBT.close st) = None /\
  (forall index key, IBT.get ab (IBT.close st) index key = Return VNull) /\
  (forall key, IBT.getAll ab (IBT.close st) key = Return VNull) /\
  IBT.fileName (IBT.close st) = None /\
  IBT.varHeadersNamesList ab (IBT.close st) = (Return None, IBT.close st) /\
  (forall cs, Forall absent (perform_all ab cs (IBT.close st))).
Proof.
  repeat (split; [done|]).
  change (IBT.close st) with IBT.new.
  induction cs as [|c cs IH]; simpl; [constructor|].
  destruct (perform_closed ab c) as [Ha Hs].
  destruct (perform ab c IBT.new) as [a st']. simpl in *. subst st'.
  by constructor.
Qed.

(** ** Encoded integers read back *)

Lemma byteZ_byte_of_Z (n : Z) : byteZ (byte_of_Z n) = n mod 256.
Proof.
  unfold byte_of_Z, byteZ.
  destruct (Byte.of_N (Z.to_N (n mod 256))) as [b|] eqn:E.
  - apply Byte.to_of_N in E. rewrite E. rewrite Z2N.id; [done|].
    apply Z.mod_pos_bound. lia.
  - apply Byte.of_N_None_iff in E.
    pose proof (Z.mod_pos_bound n 256). lia.
Qed.

Lemma le_value_le32 (v : Z) : le_value (byteZ <$> le32 v) = v mod 2 ^ 32.
Proof.
  unfold le32. simpl. rewrite !byteZ_byte_of_Z.
  change (2 ^ 8) with 256. change (2 ^ 16) with 65536.
  change (2 ^ 24) with 16777216. change (2 ^ 32) with 4294967296.
  Z.div_mod_to_equations. lia.
Qed.

Lemma toInt32_mod (v : Z) : int32_range v -> toInt32 (v mod 2 ^ 32) = v.
Proof.
  unfold int32_range, toInt32.
  change (2 ^ 31) with 2147483648. change (2 ^ 32) with 4294967296.
  intros. Z.div_mod_to_equations. lia.
Qed.

Lemma bytes_at_app (pre mid post : bytes) (n : Z) :
  n = Z.of_nat (length mid) ->
  bytes_at (pre ++ mid ++ post) (Z.of_nat (length pre)) n = byteZ <$> mid.
Proof.
  intros ->. unfold bytes_at. rewrite !Nat2Z.id.
  rewrite drop_app_length. by rewrite take_app_length.
Qed.

Lemma readInt32LE_le32 (pre post : bytes) (v : Z) :
  int32_range v ->
  readInt32LE (pre ++ le32 v ++ post) (Z.of_nat (length pre)) = Return v.
Proof.
  intros Hv. rewrite readInt32LE_in_bounds.
  - rewrite bytes_at_app by done. by rewrite le_value_le32, toInt32_mod.
  - lia.
  - rewrite !length_app. simpl. lia.
Qed.

Lemma length_concat_le32 (vs : list Z) :
  length (concat (map le32 vs)) = (4 * length vs)%nat.
Proof. induction vs as [|v vs IH]; simpl; [done|]. rewrite IH. lia. Qed.

(** The [k]-th of a run of encoded integers sits at byte [4 * k]. *)
Lemma readInt32LE_field (vs : list Z) (rest : bytes) (k : nat) (v : Z) :
  vs !! k = Some v -> int32_range v ->
  readInt32LE (concat (map le32 vs) ++ rest) (4 * Z.of_nat k) = Return v.
Proof.
  intros Hk Hv.
  rewrite <- (take_drop_middle vs k v Hk).
  rewrite map_app, concat_app. simpl. rewrite <- !app_assoc.
  replace (4 * Z.of_nat k)
    with (Z.of_nat (length (concat (map le32 (take k vs))))).
  - by apply readInt32LE_le32.
  - rewrite length_concat_le32, length_take.
    apply lookup_lt_Some in Hk. lia.
Qed.

(** ** The descriptor table *)

Lemma getInt_whole (ab : bytes) (o offset : Z) :
  getInt ab (mkStruct (whole ab) o) offset = readInt32LE ab (o + offset).
Proof. unfold getInt. simpl. by rewrite contents_whole. Qed.

Lemma IBT_getVarHeaders_loop (ab : bytes) (h : Header.t) (mem : Buffer) (o : Z)
    (indices : list Z) (st : IBT.t) :
  Header.varHeaderOffset ab h = Return o ->
  foldl (IBT.getVarHeaders_step ab h mem) (Return (), st) indices
  = (Return (),
     IBT.mk (IBT.ibtFile st) (IBT.sharedMem st) (IBT.header st) (IBT.diskHeader st)
       (match indices with
        | [] => IBT.varHeaders st
        | _ => Some (default [] (IBT.varHeaders st)
                     ++ map (fun i => mkStruct mem (o + i * 144)) indices)
        end)
       (foldl (fun d i => <[VarHeader.name ab (mkStruct mem (o + i * 144))
                            := mkStruct mem (o + i * 144)]> d)
              (IBT.varHeadersDict st) indices)
       (IBT.varHeadersNames st)).
Proof.
  intros Ho. revert st. induction indices as [|i indices IH]; intros st.
  - by destruct st.
  - simpl. rewrite Ho. rewrite IH. simpl. f_equal. f_equal.
    destruct indices; simpl; [done|]. by rewrite <- app_assoc.
Qed.

Lemma IBT_getVarHeaders_open (ab : bytes) (st : IBT.t) (h : Header.t)
    (mem : Buffer) (n o : Z) :
  IBT.varHeaders st = None -> IBT.header st = Some h -> IBT.sharedMem st = Some mem ->
  Header.numVars ab h = Return n -> Header.varHeaderOffset ab h = Return o ->
  IBT.getVarHeaders ab st
  = (Return (map (fun i => mkStruct mem (o + i * 144)) (seqZ 0 n)),
     IBT.mk (IBT.ibtFile st) (IBT.sharedMem st) (IBT.header st) (IBT.diskHeader st)
       (Some (map (fun i => mkStruct mem (o + i * 144)) (seqZ 0 n)))
       (foldl (fun d i => <[VarHeader.name ab (mkStruct mem (o + i * 144))
                            := mkStruct mem (o + i * 144)]> d) ∅ (seqZ 0 n))
       (IBT.varHeadersNames st)).
Proof.
  intros Hv Hh Hm Hn Ho. unfold IBT.getVarHeaders. rewrite Hv, Hh, Hm, Hn.
  rewrite (IBT_getVarHeaders_loop ab h mem o) by done. simpl.
  destruct (seqZ 0 n); simpl; done.
Qed.

Lemma Header_varBuf_returns (ab : bytes) (h : Header.t) (nb bl : Z) :
  Header.numBuf ab h = Return nb -> Header.bufLen ab h = Return bl ->
  Header.varBuf ab h
  = Return (map (fun i => VarBuffer.new (_sharedMem h) (48 + i * 16) bl) (seqZ 0 nb)).
Proof.
  intros Hn Hb. unfold Header.varBuf. rewrite Hn. simpl.
  apply mapM_Return. intros i _. by rewrite Hb.
Qed.

(** C9. The layout constants.  In a file that begins with ten 32-bit
    little-endian integers, the header getters return them in order (byte
    offsets 0, 4, ..., 36); the descriptor table is exactly [numVars]
    records, the i-th at [varHeaderOffset + i * 144]; the buffer descriptors
    are [numBuf] records, the i-th at [48 + i * 16], with the tick counter
    at +0 and the data offset at +4; the disk sub-header of a replay file is
    placed at byte 112, its record count at 112 + 28. *)
Theorem binary_layout_offsets (path : string) (rest : bytes)
    (version status tickRate sessionInfoUpdate sessionInfoLen sessionInfoOffset
     numVars varHeaderOffset numBuf bufLen : Z) :
  let fields := [version; status; tickRate; sessionInfoUpdate; sessionInfoLen;
                 sessionInfoOffset; numVars; varHeaderOffset; numBuf; bufLen] in
  Forall int32_range fields ->
  let fileData := concat (map le32 fields) ++ rest in
  let st := IBT.open path fileData IBT.new in
  let mem := whole fileData in
  let h := mkStruct mem 0 in
  let dh := mkStruct mem 112 in
  IBT.header st = Some h /\
  IBT.diskHeader st = Some dh /\
  [Header.version fileData h; Header.status fileData h; Header.tickRate fileData h;
   Header.sessionInfoUpdate fileData h; Header.sessionInfoLen fileData h;
   Header.sessionInfoOffset fileData h; Header.numVars fileData h;
   Header.varHeaderOffset fileData h; Header.numBuf fileData h;
   Header.bufLen fileData h] = map Return fields /\
  (IBT.getVarHeaders fileData st).1
    = Return (map (fun i => mkStruct mem (varHeaderOffset + i * 144)) (seqZ 0 numVars)) /\
  length (map (fun i => mkStruct mem (varHeaderOffset + i * 144)) (seqZ 0 numVars))
    = Z.to_nat numVars /\
  Header.varBuf fileData h
    = Return (map (fun i => VarBuffer.new mem (48 + i * 16) bufLen) (seqZ 0 numBuf)) /\
  (forall i, VarBuffer.tickCount fileData (VarBuffer.new mem (48 + i * 16) bufLen)
             = readInt32LE fileData (48 + i * 16) /\
             VarBuffer._bufOffset fileData (VarBuffer.new mem (48 + i * 16) bufLen)
             = readInt32LE fileData (48 + i * 16 + 4)) /\
  DiskSubHeader.sessionRecordCount fileData dh = readInt32LE fileData (112 + 28).
Proof.
  intros fields Hr fileData st mem h dh.
  assert (forall (k : nat) v, fields !! k = Some v ->
            getInt fileData h (4 * Z.of_nat k) = Return v) as Hf.
  { intros k v Hk. unfold h, mem. rewrite getInt_whole. simpl.
    apply readInt32LE_field; [done|].
    exact (Forall_lookup_1 _ _ _ _ Hr Hk). }
  assert (Header.numVars fileData h = Return numVars) as HnV by (apply (Hf 6%nat); done).
  assert (Header.varHeaderOffset fileData h = Return varHeaderOffset) as HvO
    by (apply (Hf 7%nat); done).
  assert (Header.numBuf fileData h = Return numBuf) as HnB by (apply (Hf 8%nat); done).
  assert (Header.bufLen fileData h = Return bufLen) as HbL by (apply (Hf 9%nat); done).
  split; [done|]. split; [done|].
  split.
  { unfold Header.version, Header.status, Header.tickRate, Header.sessionInfoUpdate,
      Header.sessionInfoLen, Header.sessionInfoOffset, Header.numVars,
      Header.varHeaderOffset, Header.numBuf, Header.bufLen.
    rewrite (Hf 0%nat version eq_refl : getInt fileData h 0 = _),
      (Hf 1%nat status eq_refl : getInt fileData h 4 = _),
      (Hf 2%nat tickRate eq_refl : getInt fileData h 8 = _),
      (Hf 3%nat sessionInfoUpdate eq_refl : getInt fileData h 12 = _),
      (Hf 4%nat sessionInfoLen eq_refl : getInt fileData h 16 = _),
      (Hf 5%nat sessionInfoOffset eq_refl : getInt fileData h 20 = _),
      (Hf 6%nat numVars eq_refl : getInt fileData h 24 = _),
      (Hf 7%nat varHeaderOffset eq_refl : getInt fileData h 28 = _),
      (Hf 8%nat numBuf eq_refl : getInt fileData h 32 = _),
      (Hf 9%nat bufLen eq_refl : getInt fileData h 36 = _).
    done. }
  split.
  { rewrite (IBT_getVarHeaders_open fileData st h mem numVars varHeaderOffset); done. }
  split; [by rewrite length_map, length_seqZ|].
  split; [by apply Header_varBuf_returns|].
  split.
  - intros i. unfold VarBuffer.tickCount, VarBuffer._bufOffset, VarBuffer.new. simpl.
    unfold mem. rewrite !getInt_whole. split; f_equal; lia.
  - unfold DiskSubHeader.sessionRecordCount, dh, mem. by rewrite getInt_whole.
Qed.

Lemma binary_layout_offsets_witness :
  (IBT.getVarHeaders sample_ibt (IBT.open "lap.ibt" sample_ibt IBT.new)).1
  = Return [mkStruct (whole sample_ibt) 144].
Proof.
  pose proof (binary_layout_offsets "lap.ibt" (drop 40 sample_ibt)
                2 1 60 0 0 0 1 144 1 4) as H.
  simpl in H.
  destruct H as (_ & _ & _ & H & _).
  - repeat constructor; unfold int32_range; lia.
  - exact H.
Defined.

(** ** The name dictionary once it is loaded *)

Lemma dict_after_inserts (ab : bytes) (mem : Buffer) (o : Z) (indices : list Z)
    (d : gmap string VarHeader.t) (key : string) :
  is_Some (foldl (fun d i => <[VarHeader.name ab (mkStruct mem (o + i * 144))
                               := mkStruct mem (o + i * 144)]> d) d indices !! key)
  <-> is_Some (d !! key) \/
      exists i, i ∈ indices /\ VarHeader.name ab (mkStruct mem (o + i * 144)) = key.
Proof.
  revert d. induction indices as [|i indices IH]; intros d; simpl.
  - split; [by left|]. intros [H|(i & Hi & _)]; [done|by apply elem_of_nil in Hi].
  - rewrite IH. split.
    + intros [H|(j & Hj & Hn)].
      * destruct (decide (VarHeader.name ab (mkStruct mem (o + i * 144)) = key)) as [E|E].
        -- right. exists i. split; [left|done].
        -- left. by rewrite lookup_insert_ne in H.
      * right. exists j. split; [by right|done].
    + intros [H|(j & Hj & Hn)].
      * left. destruct (decide (VarHeader.name ab (mkStruct mem (o + i * 144)) = key)) as [E|E].
        -- rewrite E. rewrite lookup_insert_eq. by eexists.
        -- by rewrite lookup_insert_ne.
      * apply elem_of_cons in Hj as [->|Hj].
        -- left. rewrite Hn. rewrite lookup_insert_eq. by eexists.
        -- right. exists j. done.
Qed.

(** After the list of names has been read on a freshly opened file, the
    dictionary knows exactly the names of the [numVars] descriptors. *)
Lemma IBT_dict_after_names_list (path : string) (fileData : bytes) (n o : Z)
    (key : string) :
  let st := IBT.open path fileData IBT.new in
  let h := mkStruct (whole fileData) 0 in
  Header.numVars fileData h = Return n ->
  Header.varHeaderOffset fileData h = Return o ->
  is_Some (IBT.varHeadersDict (IBT.varHeadersNamesList fileData st).2 !! key)
  <-> exists i, 0 <= i < n /\
        VarHeader.name fileData (mkStruct (whole fileData) (o + i * 144)) = key.
Proof.
  intros st h Hn Ho. unfold IBT.varHeadersNamesList. simpl.
  rewrite (IBT_getVarHeaders_open fileData st h (whole fileData) n o) by done.
  simpl. rewrite dict_after_inserts. split.
  - intros [H|(i & Hi & Hk)].
    + rewrite lookup_empty in H. by destruct H.
    + exists i. apply elem_of_seqZ in Hi. split; [lia|done].
  - intros (i & Hi & Hk). right. exists i. split; [|done].
    apply elem_of_seqZ. lia.
Qed.

(** ** Random access into a replay file *)

Lemma Header_varBuf_first (ab : bytes) (h : Header.t) (nb bl : Z) :
  Header.numBuf ab h = Return nb -> Header.bufLen ab h = Return bl -> 1 <= nb ->
  exists bufs, Header.varBuf ab h = Return bufs /\
               bufs !! 0%nat = Some (VarBuffer.new (_sharedMem h) 48 bl).
Proof.
  intros Hn Hb Hnb. eexists. split; [by apply Header_varBuf_returns|].
  rewrite list_lookup_fmap, lookup_seqZ_lt by lia. done.
Qed.

Section ReplayReads.
Variables (ab : bytes) (st : IBT.t) (h : Header.t) (dh : DiskSubHeader.t)
          (mem : Buffer) (key : string) (vh : VarHeader.t).
Variables (n ty o c bl bo nb : Z).
Hypothesis Hheader : IBT.header st = Some h.
Hypothesis HdiskHeader : IBT.diskHeader st = Some dh.
Hypothesis HsharedMem : IBT.sharedMem st = Some mem.
Hypothesis Hkey : IBT.varHeadersDict st !! key = Some vh.
Hypothesis Hn : DiskSubHeader.sessionRecordCount ab dh = Return n.
Hypothesis Hty : VarHeader.type ab vh = Return ty.
Hypothesis Ho : VarHeader.offset ab vh = Return o.
Hypothesis Hc : VarHeader.count ab vh = Return c.
Hypothesis Hbl : Header.bufLen ab h = Return bl.
Hypothesis Hnb : Header.numBuf ab h = Return nb.
Hypothesis Hnb1 : 1 <= nb.
Hypothesis Hbo : getInt ab (mkStruct (_sharedMem h) 48) 4 = Return bo.

(** With an index in range and a known name, [get] decodes at
    [descriptor.offset + firstBufferDataOffset + index * bufLen]. *)
Lemma IBT_get_in_range (index : Z) :
  0 <= index < n ->
  IBT.get ab st index key
  = unpackValues (contents ab mem) (o + bo + index * bl) (typeChar_of ty) c.
Proof using All.
  intros Hi. unfold IBT.get. rewrite Hheader, HdiskHeader, HsharedMem.
  destruct (Z.ltb_spec index 0); [lia|].
  rewrite Hn. simpl. destruct (Z.leb_spec n index); [lia|].
  rewrite Hkey, Hty. simpl. rewrite Ho. simpl.
  destruct (Header_varBuf_first ab h nb bl Hnb Hbl Hnb1) as (bufs & Hbufs & Hb0).
  rewrite Hbufs. simpl. rewrite Hb0. unfold VarBuffer._bufOffset. simpl. rewrite Hbo. simpl.
  rewrite Hbl. simpl. rewrite Hc. simpl.
  unfold IBT.unpackValues. by rewrite HsharedMem.
Qed.

Lemma IBT_getAll_known :
  IBT.getAll ab st key
  = VArray <$> mapM (fun i => unpackValues (contents ab mem) (o + bo + i * bl)
                                (typeChar_of ty) c)
                    (seqZ 0 n).
Proof using All.
  unfold IBT.getAll. rewrite Hheader, HdiskHeader, HsharedMem, Hkey, Hty.
  simpl. rewrite Hbl. simpl. rewrite Ho. simpl.
  destruct (Header_varBuf_first ab h nb bl Hnb Hbl Hnb1) as (bufs & Hbufs & Hb0).
  rewrite Hbufs. simpl. rewrite Hb0. unfold VarBuffer._bufOffset. simpl. rewrite Hbo. simpl.
  rewrite Hn. simpl. f_equal. apply mapM_ext. intros i _.
  rewrite Hc. simpl. unfold IBT.unpackValues. by rewrite HsharedMem.
Qed.

End ReplayReads.

(** An index outside the recorded range and an unknown name give [null]. *)
Lemma IBT_get_absent (ab : bytes) (st : IBT.t) (dh : DiskSubHeader.t) (n index : Z)
    (key : string) :
  IBT.diskHeader st = Some dh ->
  DiskSubHeader.sessionRecordCount ab dh = Return n ->
  index < 0 \/ n <= index \/ IBT.varHeadersDict st !! key = None ->
  IBT.get ab st index key = Return VNull.
Proof.
  intros Hd Hn Hcase. unfold IBT.get. rewrite Hd.
  destruct (IBT.header st); [|done]. destruct (IBT.sharedMem st); [|done].
  destruct (Z.ltb_spec index 0); [done|]. rewrite Hn. simpl.
  destruct (Z.leb_spec n index); [done|].
  destruct Hcase as [?|[?| ->]]; [lia|lia|done].
Qed.

(** Straight after [open] the name dictionary is empty, so no call of [get]
    reaches the codec. *)
Lemma IBT_get_after_open (path : string) (fileData : bytes) (index : Z) (key : string) :
  IBT.get fileData (IBT.open path fileData IBT.new) index key = Return VNull \/
  IBT.get fileData (IBT.open path fileData IBT.new) index key = Throw RangeError.
Proof.
  unfold IBT.get. simpl. destruct (index <? 0); [by left|].
  unfold DiskSubHeader.sessionRecordCount. rewrite getInt_whole.
  destruct (decide (0 <= 112 + 28 /\ 112 + 28 + 4 <= Z.of_nat (length fileData))) as [[? ?]|Hn].
  - rewrite readInt32LE_in_bounds by done. simpl.
    left. by destruct (_ <=? index).
  - rewrite readInt32LE_out_of_bounds by done. by right.
Qed.

(** C1 (where the code departs from it). In the sample replay file [Speed] is a
    variable and two records are stored, yet straight after [open] the
    calls [get(0, Speed)] and [get(1, Speed)] answer [null]: [get] looks
    the name up in a dictionary that only [varHeadersNamesList] fills.  Once
    the list of names has been asked for, the same calls decode 10.0 and
    12.0, and the indices -1 and 2 are absent. *)
Theorem IBT_get_needs_names_list :
  let st := IBT.open "lap.ibt" sample_ibt IBT.new in
  let st' := (IBT.varHeadersNamesList sample_ibt st).2 in
  DiskSubHeader.sessionRecordCount sample_ibt (mkStruct (whole sample_ibt) 112) = Return 2 /\
  (IBT.varHeadersNamesList sample_ibt st).1 = Return (Some ["Speed"%string]) /\
  IBT.get sample_ibt st 0 "Speed" = Return VNull /\
  IBT.get sample_ibt st 1 "Speed" = Return VNull /\
  IBT.get sample_ibt st' 0 "Speed" = Return (VFloat (S754_finite false 10485760 (-20))) /\
  IBT.get sample_ibt st' 1 "Speed" = Return (VFloat (S754_finite false 12582912 (-20))) /\
  IBT.get sample_ibt st' (-1) "Speed" = Return VNull /\
  IBT.get sample_ibt st' 2 "Speed" = Return VNull.
Proof. vm_compute. repeat split. Qed.



(** ** Section extraction *)

Lemma scan_Some (found : Z -> bool) (n : nat) (i j : Z) :
  scan found i n = Some j ->
  i <= j < i + Z.of_nat n /\ found j = true /\
  forall k, i <= k < j -> found k = false.
Proof.
  revert i. induction n as [|n IH]; intros i; simpl; [done|].
  destruct (found i) eqn:Hi.
  - intros [= <-]. split; [lia|]. split; [done|]. intros k Hk. lia.
  - intros H. destruct (IH _ H) as (Hr & Hf & Hb).
    split; [lia|]. split; [done|].
    intros k Hk. destruct (decide (k = i)) as [->|]; [done|]. apply Hb. lia.
Qed.

Lemma scan_None (found : Z -> bool) (n : nat) (i : Z) :
  scan found i n = None <-> forall k, i <= k < i + Z.of_nat n -> found k = false.
Proof.
  revert i. induction n as [|n IH]; intros i; simpl.
  - split; [intros _ k Hk; lia|done].
  - destruct (found i) eqn:Hi.
    + split; [done|]. intros H. rewrite H in Hi by lia. done.
    + rewrite IH. split.
      * intros H k Hk. destruct (decide (k = i)) as [->|]; [done|]. apply H. lia.
      * intros H k Hk. apply H. lia.
Qed.

Lemma scan_first (found : Z -> bool) (n : nat) (i j : Z) :
  i <= j < i + Z.of_nat n -> found j = true ->
  (forall k, i <= k < j -> found k = false) ->
  scan found i n = Some j.
Proof.
  intros Hr Hf Hb. destruct (scan found i n) as [j'|] eqn:E.
  - apply scan_Some in E as (Hr' & Hf' & Hb').
    destruct (Z.lt_trichotomy j j') as [Hlt|[->|Hgt]]; [|done|].
    + rewrite Hb' in Hf by lia. done.
    + rewrite Hb in Hf' by lia. done.
  - rewrite scan_None in E. rewrite E in Hf by lia. done.
Qed.

Lemma matches_at_occurs (mem pat : bytes) (i : Z) :
  pat <> [] -> matches_at mem pat i = true <-> occurs_at mem pat i.
Proof.
  intros Hpat. unfold matches_at, occurs_at.
  rewrite forallb_forall. split.
  - intros H.
    assert (0 <= i) as Hi.
    { destruct pat as [|p pat]; [done|].
      specialize (H 0%nat). simpl in H.
      assert (bool_decide (index mem (i + 0) = Some p) = true) as H0
        by (apply H; left; done).
      apply bool_decide_eq_true in H0.
      assert (is_Some (index mem (i + 0))) as Hs by eauto.
      apply index_is_Some in Hs. lia. }
    split; [done|]. apply list_eq. intros j.
    destruct (decide (j < length pat)%nat) as [Hj|Hj].
    + rewrite lookup_take_lt by done.
      assert (bool_decide (index mem (i + Z.of_nat j) = pat !! j) = true) as H0.
      { apply H. apply in_seq. lia. }
      apply bool_decide_eq_true in H0.
      rewrite <- H0. by rewrite index_drop, Nat2Z.id by lia.
    + rewrite lookup_take_ge by lia. symmetry. apply lookup_ge_None. lia.
  - intros [Hi Ht] j Hj. apply in_seq in Hj. apply bool_decide_eq_true.
    rewrite index_drop, Nat2Z.id by lia.
    assert (pat !! j = take (length pat) (drop (Z.to_nat i) mem) !! j) as ->
      by (by rewrite Ht).
    by rewrite lookup_take_lt by lia.
Qed.

Lemma matches_at_not_occurs (mem pat : bytes) (i : Z) :
  pat <> [] -> matches_at mem pat i = false <-> ~ occurs_at mem pat i.
Proof.
  intros Hpat. rewrite <- (matches_at_occurs mem pat i Hpat).
  by destruct (matches_at mem pat i).
Qed.

Lemma occurs_at_bounds (mem pat : bytes) (i : Z) :
  pat <> [] -> occurs_at mem pat i ->
  0 <= i /\ i + Z.of_nat (length pat) <= Z.of_nat (length mem).
Proof.
  intros Hpat [Hi Ht]. split; [done|].
  assert (0 < length pat)%nat by (destruct pat; [done|simpl; lia]).
  apply (f_equal length) in Ht. rewrite length_take, length_drop in Ht. lia.
Qed.

Lemma utf8_app (s1 s2 : string) : utf8 (s1 ++ s2) = utf8 s1 ++ utf8 s2.
Proof. induction s1 as [|c s1 IH]; simpl; [done|]. by rewrite IH, app_assoc. Qed.

(** The header pattern: a newline, the name, a colon, a newline. *)
Lemma section_header_bytes (sectionName : string) :
  section_header sectionName = x0a :: utf8 sectionName ++ [x3a; x0a].
Proof. unfold section_header. simpl. by rewrite utf8_app. Qed.

Lemma section_header_length (sectionName : string) :
  (3 <= length (section_header sectionName))%nat.
Proof. rewrite section_header_bytes. simpl. rewrite length_app. simpl. lia. Qed.

(** A cut of the whole region that starts inside it shows the bytes between
    the two positions. *)
Lemma contents_slice_whole (region : bytes) (a b : Z) :
  0 < a < Z.of_nat (length region) -> a < b ->
  contents region (Buffer_slice (whole region) a b) = between region a b.
Proof.
  intros Ha Hb. unfold contents, Buffer_slice, whole, between, adjustOffset. simpl.
  destruct (Z.eqb_spec a 0); [lia|]. destruct (Z.ltb_spec a 0); [lia|].
  destruct (Z.ltb_spec a (Z.of_nat (length region))); [|lia].
  destruct (Z.eqb_spec b 0); [lia|]. destruct (Z.ltb_spec b 0); [lia|].
  destruct (Z.ltb_spec b (Z.of_nat (length region))).
  - destruct (Z.ltb_spec a b); [|lia]. done.
  - destruct (Z.ltb_spec a (Z.of_nat (length region))); [|lia].
    rewrite !take_ge; [done| |]; rewrite length_drop; lia.
Qed.

Lemma section_header_nonempty (sectionName : string) : section_header sectionName <> [].
Proof. by rewrite section_header_bytes. Qed.

(** C2, on the scenario of the specification: the cut starts at the section
    name, so the header line is part of the result, and it stops in front of
    the blank line, so no newline ends it.  The bytes the specification
    expects are not what is returned. *)
Lemma extractYamlSection_scenario :
  (fun r => latin1 (contents sample_block r))
    <$> extractYamlSection sample_block (whole sample_block) 0
          (Z.of_nat (length sample_block)) "WeekendInfo"
  = Some ("WeekendInfo:" ++ String nl "  TrackDisplayName: Road Atlanta")%string /\
  contents sample_block
    <$> extractYamlSection sample_block (whole sample_block) 0
          (Z.of_nat (length sample_block)) "WeekendInfo"
  <> Some (list_byte_of_string ("  TrackDisplayName: Road Atlanta" ++ String nl "")).
Proof. split; [by vm_compute|]. vm_compute. intros H. discriminate H. Qed.

(** C2 as amended. With the header pattern (newline, name, colon, newline)
    first standing at position [i] of the block and ending before the
    block's last byte, the result is the bytes from [i + 1], the first byte
    of the name, up to the first pair of newlines that starts at [i + 2] or
    later and ends before the block's last byte, that pair excluded; up to
    the end of the block when no pair of newlines lies in the rest of the
    block.  When the pattern stands nowhere in the block the result is
    absent. *)
Theorem extractYamlSection_spec (region : bytes) (offset len : Z) (sectionName : string) :
  let pat := section_header sectionName in
  let end_ := offset + len in
  let result :=
    contents region <$> extractYamlSection region (whole region) offset len sectionName in
  ((forall i, offset <= i -> i + Z.of_nat (length pat) <= end_ ->
              ~ occurs_at region pat i) ->
   result = None) /\
  (forall i,
     offset <= i -> i + Z.of_nat (length pat) < end_ ->
     occurs_at region pat i ->
     (forall k, offset <= k < i -> ~ occurs_at region pat k) ->
     (forall j, i + 2 <= j -> j + 2 < end_ ->
                occurs_at region section_end j ->
                (forall k, i + 2 <= k < j -> ~ occurs_at region section_end k) ->
                result = Some (between region (i + 1) j)) /\
     ((forall j, i + 2 <= j -> j + 2 <= end_ -> ~ occurs_at region section_end j) ->
      result = Some (between region (i + 1) end_))).
Proof.
  intros pat end_ result.
  pose proof (section_header_nonempty sectionName) as Hpat.
  pose proof (section_header_length sectionName) as Hlen.
  split.
  - intros Hno. unfold result, extractYamlSection. rewrite contents_whole.
    fold pat. fold end_.
    replace (first_match region pat offset (end_ - Z.of_nat (length pat))) with (@None Z);
      [done|].
    symmetry. apply scan_None. intros k Hk.
    apply matches_at_not_occurs; [done|]. apply Hno; lia.
  - intros i Hi Hend Hocc Hfirst.
    destruct (occurs_at_bounds region pat i Hpat Hocc) as [Hi0 Hib].
    fold pat in Hlen.
    assert (first_match region pat offset (end_ - Z.of_nat (length pat)) = Some i) as Hscan.
    { apply scan_first; [lia| |].
      - by apply matches_at_occurs.
      - intros k Hk. apply matches_at_not_occurs; [done|]. by apply Hfirst. }
    split.
    + intros j Hj Hjend Hblank Hjfirst.
      unfold result, extractYamlSection. rewrite contents_whole.
      fold pat. fold end_. rewrite Hscan.
      replace (first_match region section_end (i + 1 + 1)
                 (end_ - Z.of_nat (length section_end))) with (Some j).
      * simpl. f_equal. apply contents_slice_whole; lia.
      * symmetry. apply scan_first.
        -- change (Z.of_nat (length section_end)) with 2. lia.
        -- by apply matches_at_occurs.
        -- intros k Hk. apply matches_at_not_occurs; [done|]. apply Hjfirst. lia.
    + intros Hnone.
      unfold result, extractYamlSection. rewrite contents_whole.
      fold pat. fold end_. rewrite Hscan.
      replace (first_match region section_end (i + 1 + 1)
                 (end_ - Z.of_nat (length section_end))) with (@None Z).
      * simpl. f_equal. apply contents_slice_whole; lia.
      * symmetry. apply scan_None. intros k Hk.
        change (Z.of_nat (length section_end)) with 2 in Hk.
        apply matches_at_not_occurs; [done|]. apply Hnone; lia.
Qed.

Lemma extractYamlSection_spec_witness :
  contents sample_block
    <$> extractYamlSection sample_block (whole sample_block) 0
          (Z.of_nat (length sample_block)) "WeekendInfo"
  = Some (between sample_block 1 46).
Proof.
  destruct (extractYamlSection_spec sample_block 0 (Z.of_nat (length sample_block))
              "WeekendInfo") as [_ H].
  destruct (H 0) as [H1 _].
  - lia.
  - vm_compute. reflexivity.
  - split; [lia|]. vm_compute. reflexivity.
  - intros k Hk. lia.
  - apply (H1 46).
    + lia.
    + vm_compute. reflexivity.
    + split; [lia|]. vm_compute. reflexivity.
    + intros k Hk.
      assert (matches_at sample_block section_end k = false) as Hm.
      { assert (forallb (fun k => negb (matches_at sample_block section_end k))
                        (seqZ 2 44) = true) as Hall by (vm_compute; reflexivity).
        rewrite forallb_forall in Hall.
        apply negb_true_iff. apply Hall. apply list_elem_of_In.
        apply elem_of_seqZ. lia. }
      by apply matches_at_not_occurs in Hm.
Defined.

(** ** Freezing a tick buffer *)

(** What a frozen buffer shows is read from the region as it is at the time
    of the read: [freeze] keeps a view made by [slice], not a copy. *)
Lemma frozen_memory_is_a_view (ab : bytes) (vb frozen : VarBuffer.t) :
  VarBuffer.freeze ab vb = Return frozen ->
  exists o, VarBuffer._bufOffset ab vb = Return o /\
    VarBuffer.isMemoryFrozen frozen = true /\
    VarBuffer.bufOffset ab frozen = Return 0 /\
    forall ab', contents ab' (VarBuffer.getMemory frozen)
                = contents ab' (Buffer_slice (_sharedMem (VarBuffer.base vb)) o
                                  (o + VarBuffer._bufLen vb)).
Proof.
  unfold VarBuffer.freeze.
  destruct (VarBuffer._bufOffset ab vb) as [o|e]; [|done]. simpl.
  intros [= <-]. exists o. done.
Qed.

(** C3 (where the code departs from it). Buffer 1 of the sample region (data at
    byte 320, stride 64) is frozen; while frozen its [bufOffset] is 0 and a
    read of [Speed] through [getMemory] gives 12.0.  After a later write of
    0xff to byte 320 of the region the same read through the same frozen
    buffer gives another number: the bytes of the frozen buffer changed.
    [unfreeze] brings back the live region and the dynamic offset. *)
Theorem VarBuffer_freeze_shares_region :
  let vb := VarBuffer.new (whole sample_live) 64 64 in
  let written := <[320%nat := xff]> sample_live in
  exists frozen,
    VarBuffer.freeze sample_live vb = Return frozen /\
    VarBuffer.isMemoryFrozen frozen = true /\
    VarBuffer.bufOffset sample_live frozen = Return 0 /\
    contents sample_live (VarBuffer.getMemory frozen) = take 64 (drop 320 sample_live) /\
    unpackValue (contents sample_live (VarBuffer.getMemory frozen)) 0 (Some "f"%char)
      = Return (VFloat (S754_finite false 12582912 (-20))) /\
    unpackValue (contents written (VarBuffer.getMemory frozen)) 0 (Some "f"%char)
      = Return (VFloat (S754_finite false 12583167 (-20))) /\
    contents written (VarBuffer.getMemory frozen)
      <> contents sample_live (VarBuffer.getMemory frozen) /\
    VarBuffer.getMemory (VarBuffer.unfreeze frozen) = whole written /\
    VarBuffer.isMemoryFrozen (VarBuffer.unfreeze frozen) = false /\
    VarBuffer.bufOffset written (VarBuffer.unfreeze frozen) = Return 320.
Proof.
  eexists. split; [vm_compute; reflexivity|].
  repeat split; try (vm_compute; reflexivity).
  vm_compute. intros H. discriminate H.
Qed.

(** ** Buffer selection *)

Lemma insert_desc_perm {A} (x : Z * A) (l : list (Z * A)) :
  insert_desc x l ≡ₚ x :: l.
Proof.
  induction l as [|y l IH]; simpl; [done|].
  destruct (y.1 <=? x.1); [done|]. rewrite IH. apply Permutation_swap.
Qed.

Lemma sort_desc_perm {A} (l : list (Z * A)) : sort_desc l ≡ₚ l.
Proof.
  induction l as [|x l IH]; simpl; [done|].
  unfold sort_desc in *. simpl. by rewrite insert_desc_perm, IH.
Qed.

Lemma insert_desc_sorted {A} (x : Z * A) (l : list (Z * A)) :
  StronglySorted desc_order l -> StronglySorted desc_order (insert_desc x l).
Proof.
  induction l as [|y l IH]; intros Hs; simpl.
  - repeat constructor.
  - apply StronglySorted_inv in Hs as [Hl Hy].
    destruct (Z.leb_spec y.1 x.1) as [Hle|Hgt].
    + constructor; [by constructor|].
      constructor; [done|].
      eapply Forall_impl; [exact Hy|]. unfold desc_order. intros z Hz. lia.
    + constructor; [by apply IH|].
      rewrite insert_desc_perm. constructor; [unfold desc_order; lia|done].
Qed.

Lemma sort_desc_sorted {A} (l : list (Z * A)) : StronglySorted desc_order (sort_desc l).
Proof.
  induction l as [|x l IH]; simpl; [constructor|].
  by apply insert_desc_sorted.
Qed.






(** ** The live read before the variable table is loaded *)

(** [IRSDK.get] consults the same lazily filled dictionary as [IBT.get]:
    until [varHeadersNamesList] has been read once, every key goes to the
    session-information lookup, the names of telemetry variables too. *)
Lemma IRSDK_get_before_table_load getSessionInfo (key : string) :
  let st0 := (IRSDK.startup "region.bin" sample_live IRSDK.new).2 in
  IRSDK.get getSessionInfo sample_live st0 key = getSessionInfo sample_live st0 key.
Proof. intros st0. unfold IRSDK.get. simpl. done. Qed.

(** ** Frozen reads of the live region *)

(** Between [freezeVarBufferLatest] and [unfreezeVarBufferLatest] a read is
    served from the buffer with the highest tick (buffer 1, holding 12.0),
    at offset 0 of the frozen memory; a write to the region in between is
    seen by the next read. *)
Lemma IRSDK_frozen_read_follows_region getSessionInfo :
  let st0 := (IRSDK.startup "region.bin" sample_live IRSDK.new).2 in
  let st := (IRSDK.varHeadersNamesList sample_live st0).2 in
  let frozen := (IRSDK.freezeVarBufferLatest sample_live st).2 in
  let written := <[320%nat := xff]> sample_live in
  (IRSDK.freezeVarBufferLatest sample_live st).1 = Return () /\
  (IRSDK.get getSessionInfo sample_live frozen "Speed").1
    = Return (VFloat (S754_finite false 12582912 (-20))) /\
  (IRSDK.get getSessionInfo written frozen "Speed").1
    = Return (VFloat (S754_finite false 12583167 (-20))) /\
  (IRSDK.get getSessionInfo sample_live (IRSDK.unfreezeVarBufferLatest frozen) "Speed").1
    = Return (VFloat (S754_finite false 10485760 (-20))).
Proof. vm_compute. repeat split. Qed.

(** * Further properties of the code *)

(** ** Integer reads and their encoding *)

Lemma byteZ_inj (a b : byte) : byteZ a = byteZ b -> a = b.
Proof.
  unfold byteZ. intros H. apply N2Z.inj in H.
  pose proof (Byte.of_to_N a) as Ha. pose proof (Byte.of_to_N b) as Hb.
  rewrite H in Ha. congruence.
Qed.

Lemma le32_of_bytes (a0 a1 a2 a3 : byte) (v : Z) :
  v mod 2 ^ 32 = le_value [byteZ a0; byteZ a1; byteZ a2; byteZ a3] ->
  le32 v = [a0; a1; a2; a3].
Proof.
  intros Hv. unfold le32.
  pose proof (byteZ_range a0). pose proof (byteZ_range a1).
  pose proof (byteZ_range a2). pose proof (byteZ_range a3).
  unfold le_value in Hv.
  change (2 ^ 32) with 4294967296 in Hv.
  change (2 ^ 8) with 256. change (2 ^ 16) with 65536. change (2 ^ 24) with 16777216.
  repeat f_equal; apply byteZ_inj; rewrite byteZ_byte_of_Z;
    revert Hv; generalize (byteZ a0) (byteZ a1) (byteZ a2) (byteZ a3) H H0 H1 H2;
    clear; intros; Z.div_mod_to_equations; lia.
Qed.

Lemma toInt32_mod_same (z : Z) : toInt32 z mod 2 ^ 32 = z mod 2 ^ 32.
Proof.
  unfold toInt32. change (2 ^ 31) with 2147483648. change (2 ^ 32) with 4294967296.
  Z.div_mod_to_equations. lia.
Qed.

Lemma toInt32_range (z : Z) : int32_range (toInt32 z).
Proof.
  unfold toInt32, int32_range.
  change (2 ^ 31) with 2147483648. change (2 ^ 32) with 4294967296.
  Z.div_mod_to_equations. lia.
Qed.

Lemma take4_drop (mem : bytes) (off : Z) :
  0 <= off -> off + 4 <= Z.of_nat (length mem) ->
  exists a0 a1 a2 a3,
    take 4 (drop (Z.to_nat off) mem) = [a0; a1; a2; a3] /\
    bytes_at mem off 4 = [byteZ a0; byteZ a1; byteZ a2; byteZ a3].
Proof.
  intros Ho Hl. unfold bytes_at.
  destruct (drop (Z.to_nat off) mem) as [|a0 [|a1 [|a2 [|a3 d]]]] eqn:Hd;
    try (apply (f_equal length) in Hd; rewrite length_drop in Hd; simpl in Hd; lia).
  exists a0, a1, a2, a3. done.
Qed.

Lemma readUInt32LE_le32 (pre post : bytes) (v : Z) :
  0 <= v < 2 ^ 32 ->
  readUInt32LE (pre ++ le32 v ++ post) (Z.of_nat (length pre)) = Return v.
Proof.
  intros Hv. rewrite readUInt32LE_in_bounds.
  - rewrite bytes_at_app by done. rewrite le_value_le32. f_equal.
    by apply Z.mod_small.
  - lia.
  - rewrite !length_app. simpl. lia.
Qed.

Lemma unpackValue_int32 (mem : bytes) (offset : Z) :
  unpackValue mem offset (Some "i"%char) = VNum <$> readInt32LE mem offset.
Proof. reflexivity. Qed.

Lemma unpackValue_uint32 (mem : bytes) (offset : Z) :
  unpackValue mem offset (Some "I"%char) = VNum <$> readUInt32LE mem offset.
Proof. reflexivity. Qed.

(** X1. A 32-bit integer read is the exact inverse of the little-endian
    encoding: a signed or unsigned read that returns [v] was given the four
    bytes that encode [v], and [v] lies in the range of its type; four
    bytes encoding an in-range [v], placed anywhere in a region, read back
    as [v]. *)
Theorem integer_reads_invert_encoding (mem : bytes) (offset v : Z) :
  (unpackValue mem offset (Some "i"%char) = Return (VNum v) ->
   int32_range v /\ 0 <= offset /\ le32 v = take 4 (drop (Z.to_nat offset) mem)) /\
  (unpackValue mem offset (Some "I"%char) = Return (VNum v) ->
   0 <= v < 2 ^ 32 /\ 0 <= offset /\ le32 v = take 4 (drop (Z.to_nat offset) mem)) /\
  (int32_range v -> forall pre post,
     unpackValue (pre ++ le32 v ++ post) (Z.of_nat (length pre)) (Some "i"%char)
     = Return (VNum v)) /\
  (0 <= v < 2 ^ 32 -> forall pre post,
     unpackValue (pre ++ le32 v ++ post) (Z.of_nat (length pre)) (Some "I"%char)
     = Return (VNum v)).
Proof.
  split; [|split; [|split]].
  - rewrite unpackValue_int32. intros H.
    destruct (decide (0 <= offset /\ offset + 4 <= Z.of_nat (length mem))) as [[Ho Hl]|Hn].
    2:{ by rewrite readInt32LE_out_of_bounds in H. }
    rewrite readInt32LE_in_bounds in H by done. simpl in H. injection H as <-.
    destruct (take4_drop mem offset Ho Hl) as (a0 & a1 & a2 & a3 & Ht & Hb).
    rewrite Hb, Ht. split; [apply toInt32_range|]. split; [done|].
    apply le32_of_bytes. rewrite toInt32_mod_same. apply Z.mod_small.
    pose proof (byteZ_range a0). pose proof (byteZ_range a1).
    pose proof (byteZ_range a2). pose proof (byteZ_range a3).
    unfold le_value. change (2 ^ 32) with 4294967296. lia.
  - rewrite unpackValue_uint32. intros H.
    destruct (decide (0 <= offset /\ offset + 4 <= Z.of_nat (length mem))) as [[Ho Hl]|Hn].
    2:{ unfold readUInt32LE in H. by rewrite read4_out_of_bounds in H. }
    rewrite readUInt32LE_in_bounds in H by done. simpl in H. injection H as <-.
    destruct (take4_drop mem offset Ho Hl) as (a0 & a1 & a2 & a3 & Ht & Hb).
    rewrite Hb, Ht.
    pose proof (byteZ_range a0). pose proof (byteZ_range a1).
    pose proof (byteZ_range a2). pose proof (byteZ_range a3).
    assert (0 <= le_value [byteZ a0; byteZ a1; byteZ a2; byteZ a3] < 2 ^ 32) as Hr.
    { unfold le_value. change (2 ^ 32) with 4294967296. lia. }
    split; [done|]. split; [done|].
    apply le32_of_bytes. by apply Z.mod_small.
  - intros Hv pre post. by rewrite unpackValue_int32, readInt32LE_le32.
  - intros Hv pre post. by rewrite unpackValue_uint32, readUInt32LE_le32.
Qed.

Lemma integer_reads_invert_encoding_witness :
  unpackValue ([x07] ++ le32 (-5) ++ [x09]) 1 (Some "i"%char) = Return (VNum (-5)).
Proof.
  apply (proj1 (proj2 (proj2 (integer_reads_invert_encoding [] 0 (-5)))) ltac:(unfold int32_range; lia) [x07] [x09]).
Defined.

(** ** Bounds and edge cases of the codec *)

(** X2. The codec is bounds-checked: for each of the six type tags a read
    returns a value exactly when all of its bytes lie inside the region, and
    throws a RangeError otherwise; it never reads outside the region. *)
Theorem unpackValue_bounds_checked (mem : bytes) (offset : Z) (t : type_tag) :
  (returns (unpackValue mem offset (typeChar_of (tag_code t)))
   <-> 0 <= offset /\ offset + typeSize t <= Z.of_nat (length mem)) /\
  (~ (0 <= offset /\ offset + typeSize t <= Z.of_nat (length mem))
   <-> unpackValue mem offset (typeChar_of (tag_code t)) = Throw RangeError).
Proof.
  destruct (decide (0 <= offset /\ offset + typeSize t <= Z.of_nat (length mem)))
    as [[Ho Hl]|Hn].
  - rewrite unpackValue_in_bounds by done. split.
    + split; [done|]. intros _. by eexists.
    + split; [intros H; by destruct H|done].
  - rewrite unpackValue_out_of_bounds by done. split.
    + split; [by intros [? ?]|done].
    + done.
Qed.

(** X3. Edge cases of the array read.  An element count of zero or below
    gives the empty array without touching the region, whatever the offset;
    a type number outside 0..5 has no type character, and then every
    element is the number 0, again without a read. *)
Theorem unpackValues_edge_cases (mem : bytes) (offset count type : Z)
    (typeChar : option ascii) :
  (count <= 0 -> unpackValues mem offset typeChar count = Return (VArray [])) /\
  (type < 0 \/ 5 < type ->
   typeChar_of type = None /\
   unpackValues mem offset (typeChar_of type) 1 = Return (VNum 0) /\
   (count <> 1 ->
    unpackValues mem offset (typeChar_of type) count
    = Return (VArray (replicate (Z.to_nat count) (VNum 0))))).
Proof.
  split.
  - intros Hc. unfold unpackValues.
    destruct (Z.eqb_spec count 1); [lia|].
    unfold seqZ. replace (Z.to_nat count) with 0%nat by lia. done.
  - intros Ht.
    assert (typeChar_of type = None) as E.
    { unfold typeChar_of. destruct (Z.ltb_spec type 0); [done|].
      apply lookup_ge_None. simpl. lia. }
    rewrite E. split; [done|]. split; [done|].
    intros Hc. unfold unpackValues.
    destruct (Z.eqb_spec count 1); [lia|].
    rewrite (mapM_Return _ (fun _ => VNum 0)) by done. simpl. do 2 f_equal.
    rewrite <- (length_seqZ 0 count).
    induction (seqZ 0 count) as [|i l IH]; simpl; [done|]. by rewrite IH.
Qed.

Lemma unpackValues_edge_cases_witness :
  unpackValues [] 7 (Some "d"%char) 0 = Return (VArray []) /\
  unpackValues [] 7 (typeChar_of 9) 3 = Return (VArray [VNum 0; VNum 0; VNum 0]).
Proof.
  split.
  - apply (proj1 (unpackValues_edge_cases [] 7 0 0 (Some "d"%char))). lia.
  - destruct (proj2 (unpackValues_edge_cases [] 7 3 9 None)) as (_ & _ & H); [lia|].
    apply H. lia.
Defined.

(** ** Fixed-width strings *)

Lemma adjustOffset_nonneg (x len : Z) :
  0 <= x -> 0 <= len -> adjustOffset x len = Z.min x len.
Proof.
  intros Hx Hl. unfold adjustOffset.
  destruct (Z.eqb_spec x 0); [lia|]. destruct (Z.ltb_spec x 0); [lia|].
  destruct (Z.ltb_spec x len); lia.
Qed.

(** A cut of the whole region between two positions that are not negative. *)
Lemma contents_slice_whole_nonneg (region : bytes) (a b : Z) :
  0 <= a -> 0 <= b ->
  contents region (Buffer_slice (whole region) a b) = between region a b.
Proof.
  intros Ha Hb. unfold contents, Buffer_slice, whole, between. simpl.
  rewrite !adjustOffset_nonneg by lia.
  destruct (decide (Z.of_nat (length region) <= a)) as [Hge|Hlt].
  - rewrite !drop_ge by lia. by rewrite !take_nil.
  - rewrite Z.min_l by lia.
    destruct (Z.ltb_spec a (Z.min b (Z.of_nat (length region)))) as [Hlt'|Hge'].
    + destruct (decide (b <= Z.of_nat (length region))) as [Hb'|Hb'].
      * rewrite Z.min_l by lia. done.
      * rewrite Z.min_r by lia. rewrite !take_ge; [done| |]; rewrite length_drop; lia.
    + replace (Z.to_nat (b - a)) with 0%nat by lia. done.
Qed.

(** A cut from the start of any view. *)
Lemma contents_slice_prefix (ab : bytes) (v : Buffer) (k : nat) :
  (k <= blength v)%nat ->
  contents ab (Buffer_slice v 0 (Z.of_nat k)) = take k (contents ab v).
Proof.
  intros Hk. unfold contents, Buffer_slice. cbn [byteOffset blength].
  change (adjustOffset 0 (Z.of_nat (blength v))) with 0.
  rewrite (adjustOffset_nonneg (Z.of_nat k)), Z.min_l by lia.
  change (Z.to_nat 0) with 0%nat. rewrite Nat.add_0_r, take_take.
  destruct (Z.ltb_spec 0 (Z.of_nat k)) as [Hpos|Hz].
  - f_equal. lia.
  - replace k with 0%nat by lia. done.
Qed.

Lemma getStringValue_until_null (ab : bytes) (s : IRSDKStruct) (offset maxLength : Z) :
  getStringValue ab s offset maxLength
  = latin1 (until_null
              (contents ab (Buffer_slice (_sharedMem s) (_offset s + offset)
                              (_offset s + offset + maxLength)))).
Proof.
  unfold getStringValue.
  set (buffer := Buffer_slice _ _ _). unfold indexOf.
  destruct (indexOf_from_null (contents ab buffer) 0) as [[H1 H2]|(k & H1 & H2 & H3)]; [lia| |].
  - by rewrite H1, H2.
  - rewrite H1, H3. destruct (Z.eqb_spec (0 + Z.of_nat k) (-1)); [lia|].
    rewrite Z.add_0_l, contents_slice_prefix; [done|].
    unfold contents in H2. rewrite length_take in H2. lia.
Qed.

Lemma until_null_no_null (l : bytes) : x00 ∉ until_null l.
Proof.
  induction l as [|b l IH]; simpl; [apply not_elem_of_nil|].
  destruct (decide (b = x00)); [apply not_elem_of_nil|].
  rewrite not_elem_of_cons. split; [congruence|done].
Qed.

Lemma until_null_padded (l : bytes) (m : nat) :
  x00 ∉ l -> until_null (l ++ zeros m) = l.
Proof.
  induction l as [|b l IH]; intros Hl; simpl.
  - destruct m; simpl; [done|]. by destruct (decide (x00 = x00)).
  - apply not_elem_of_cons in Hl as [Hb Hl].
    destruct (decide (b = x00)); [congruence|]. by rewrite IH.
Qed.

Lemma fixed_string_padded (s : string) (width : nat) :
  (String.length s <= width)%nat ->
  fixed_string s width
  = list_byte_of_string s ++ zeros (width - String.length s).
Proof.
  intros Hs. unfold fixed_string, zeros.
  assert (length (list_byte_of_string s) = String.length s) as Hlen.
  { rewrite <- (string_of_list_byte_of_string s) at 2.
    by rewrite string_of_list_byte_length. }
  rewrite take_app_ge by lia. rewrite Hlen. f_equal.
  rewrite take_replicate. f_equal. lia.
Qed.

Lemma fixed_string_length (s : string) (width : nat) :
  length (fixed_string s width) = width.
Proof.
  unfold fixed_string, zeros. rewrite length_take, length_app, length_replicate. lia.
Qed.

(** X4. Fixed-width strings read back.  [getStringValue] never returns a
    null character, and a string without null characters that was stored
    null-padded in a field of [width] bytes (the string filling the field
    at most) is returned as it was stored, whatever surrounds the field;
    the name, description and unit of a variable descriptor are read this
    way at +16, +48 and +112. *)
Theorem getStringValue_reads_back (pre post : bytes) (s : string) (width : nat)
    (base offset : Z) :
  let region := pre ++ fixed_string s width ++ post in
  (forall ab st o w i,
      String.get i (getStringValue ab st o w) <> Some "000"%char) /\
  (x00 ∉ list_byte_of_string s -> (String.length s <= width)%nat ->
   base + offset = Z.of_nat (length pre) ->
   getStringValue region (mkStruct (whole region) base) offset (Z.of_nat width) = s).
Proof.
  intros region. split.
  - intros ab st o w i. rewrite getStringValue_until_null. unfold latin1.
    rewrite string_of_list_byte_get.
    destruct (until_null _ !! i) as [b|] eqn:E; [|done]. simpl.
    intros [= H].
    assert (b = x00) as ->.
    { rewrite <- (byte_of_ascii_of_byte b), H. reflexivity. }
    apply list_elem_of_lookup_2 in E. by apply until_null_no_null in E.
  - intros Hnull Hlen Hoff. rewrite getStringValue_until_null. simpl.
    rewrite Hoff, contents_slice_whole_nonneg by lia.
    unfold between, region.
    replace (Z.to_nat (Z.of_nat (length pre) + Z.of_nat width - Z.of_nat (length pre)))
      with width by lia.
    rewrite Nat2Z.id, drop_app_length.
    rewrite take_app_length' by (by rewrite fixed_string_length).
    rewrite fixed_string_padded, until_null_padded by done.
    apply string_of_list_byte_of_string.
Qed.

Lemma getStringValue_reads_back_witness :
  let region := le32 1 ++ descriptor_bytes 4 0 1 "Speed" "GPS vehicle speed" "m/s" in
  VarHeader.name region (mkStruct (whole region) 4) = "Speed"%string.
Proof.
  intros region.
  apply (proj2 (getStringValue_reads_back
                  (le32 1 ++ le32 4 ++ le32 0 ++ le32 1 ++ zeros 4)
                  (fixed_string "GPS vehicle speed" 64 ++ fixed_string "m/s" 32)
                  "Speed" 32 4 16)).
  - vm_compute. intros H. repeat (apply elem_of_cons in H as [H|H]; [discriminate H|]).
    by apply elem_of_nil in H.
  - simpl. lia.
  - reflexivity.
Defined.

(** ** The variable table of a replay file *)

Lemma dict_inserts_untouched (ab : bytes) (mem : Buffer) (o : Z) (indices : list Z)
    (d : gmap string VarHeader.t) (key : string) :
  (forall j, j ∈ indices -> VarHeader.name ab (mkStruct mem (o + j * 144)) <> key) ->
  foldl (fun d i => <[VarHeader.name ab (mkStruct mem (o + i * 144))
                      := mkStruct mem (o + i * 144)]> d) d indices !! key
  = d !! key.
Proof.
  revert d. induction indices as [|i indices IH]; intros d Hne; simpl; [done|].
  rewrite IH by (intros j Hj; apply Hne; by right).
  apply lookup_insert_ne. apply Hne. left.
Qed.

Lemma dict_inserts_last (ab : bytes) (mem : Buffer) (o : Z) (before after : list Z)
    (i : Z) (d : gmap string VarHeader.t) (key : string) :
  VarHeader.name ab (mkStruct mem (o + i * 144)) = key ->
  (forall j, j ∈ after -> VarHeader.name ab (mkStruct mem (o + j * 144)) <> key) ->
  foldl (fun d i => <[VarHeader.name ab (mkStruct mem (o + i * 144))
                      := mkStruct mem (o + i * 144)]> d) d (before ++ i :: after) !! key
  = Some (mkStruct mem (o + i * 144)).
Proof.
  intros Hi Hafter. rewrite foldl_app. simpl.
  rewrite dict_inserts_untouched by done. rewrite Hi. apply lookup_insert_eq.
Qed.

(** The reader after [open] and a first read of [varHeadersNamesList]. *)
Lemma IBT_loaded_state (path : string) (fileData : bytes) (n o : Z) :
  let mem := whole fileData in
  let h := mkStruct mem 0 in
  let descriptors := map (fun i => mkStruct mem (o + i * 144)) (seqZ 0 n) in
  Header.numVars fileData h = Return n ->
  Header.varHeaderOffset fileData h = Return o ->
  IBT.varHeadersNamesList fileData (IBT.open path fileData IBT.new)
  = (Return (Some (map (VarHeader.name fileData) descriptors)),
     IBT.mk (Some path) (Some mem) (Some h) (Some (mkStruct mem 112))
       (Some descriptors)
       (foldl (fun d i => <[VarHeader.name fileData (mkStruct mem (o + i * 144))
                            := mkStruct mem (o + i * 144)]> d) ∅ (seqZ 0 n))
       (Some (map (VarHeader.name fileData) descriptors))).
Proof.
  intros mem h descriptors Hn Ho. unfold IBT.varHeadersNamesList. simpl.
  by rewrite (IBT_getVarHeaders_open fileData _ h mem n o).
Qed.

(** X5. The name dictionary of a replay file.  After [open] and a first
    read of [varHeadersNamesList], the list holds the names of the [numVars]
    descriptors in table order; a name is in the dictionary exactly when
    some descriptor of the table bears it; and when several do, the
    dictionary holds the last of them. *)
Theorem IBT_names_dictionary (path : string) (fileData : bytes) (n o : Z)
    (key : string) :
  let mem := whole fileData in
  let h := mkStruct mem 0 in
  let descriptor := fun i => mkStruct mem (o + i * 144) in
  let loaded := IBT.varHeadersNamesList fileData (IBT.open path fileData IBT.new) in
  Header.numVars fileData h = Return n ->
  Header.varHeaderOffset fileData h = Return o ->
  loaded.1 = Return (Some (map (fun i => VarHeader.name fileData (descriptor i))
                               (seqZ 0 n))) /\
  (is_Some (IBT.varHeadersDict loaded.2 !! key)
   <-> exists i, 0 <= i < n /\ VarHeader.name fileData (descriptor i) = key) /\
  (forall i, 0 <= i < n -> VarHeader.name fileData (descriptor i) = key ->
     (forall j, i < j < n -> VarHeader.name fileData (descriptor j) <> key) ->
     IBT.varHeadersDict loaded.2 !! key = Some (descriptor i)).
Proof.
  intros mem h descriptor loaded Hn Ho. unfold loaded.
  rewrite (IBT_loaded_state path fileData n o) by done. simpl.
  split; [by rewrite map_map|].
  split.
  - rewrite dict_after_inserts. split.
    + intros [H|(i & Hi & Hk)].
      * rewrite lookup_empty in H. by destruct H.
      * exists i. apply elem_of_seqZ in Hi. split; [lia|done].
    + intros (i & Hi & Hk). right. exists i. split; [|done].
      apply elem_of_seqZ. lia.
  - intros i Hi Hk Hlast.
    replace n with (i + (1 + (n - i - 1))) by lia.
    rewrite seqZ_app by lia. rewrite (seqZ_cons (0 + i)) by lia. simpl.
    replace (0 + i) with i by lia.
    apply dict_inserts_last; [done|].
    intros j Hj. apply elem_of_seqZ in Hj. apply Hlast. lia.
Qed.

Lemma IBT_names_dictionary_witness :
  IBT.varHeadersDict
    (IBT.varHeadersNamesList sample_ibt (IBT.open "lap.ibt" sample_ibt IBT.new)).2
    !! "Speed"%string
  = Some (mkStruct (whole sample_ibt) 144).
Proof.
  destruct (IBT_names_dictionary "lap.ibt" sample_ibt 1 144 "Speed") as (_ & _ & H).
  - vm_compute. reflexivity.
  - vm_compute. reflexivity.
  - apply (H 0); [lia|vm_compute; reflexivity|]. intros j Hj. lia.
Defined.

Lemma IBT_getVarHeaders_loop_header (ab : bytes) (h : Header.t) (mem : Buffer)
    (indices : list Z) (acc : outcome unit * IBT.t) :
  IBT.header (foldl (IBT.getVarHeaders_step ab h mem) acc indices).2
  = IBT.header acc.2.
Proof.
  revert acc. induction indices as [|i indices IH]; intros acc; simpl; [done|].
  rewrite IH. destruct acc as [[u|e] st]; simpl; [|done].
  by destruct (Header.varHeaderOffset ab h).
Qed.

(** X6. The list of names is computed once.  When a read of
    [varHeadersNamesList] has returned a list, every later read returns the
    same list and leaves the reader as it is, whatever the bytes of the file
    buffer are by then. *)
Theorem varHeadersNamesList_memoized (ab ab' : bytes) (st st1 : IBT.t)
    (names : list string) :
  IBT.varHeadersNamesList ab st = (Return (Some names), st1) ->
  IBT.varHeadersNamesList ab' st1 = (Return (Some names), st1).
Proof.
  unfold IBT.varHeadersNamesList at 1.
  destruct (IBT.header st) as [h|] eqn:Hh; [|by intros [= ]].
  destruct (IBT.varHeadersNames st) as [known|] eqn:Hk.
  - intros [= -> ->]. unfold IBT.varHeadersNamesList. by rewrite Hh, Hk.
  - destruct (IBT.getVarHeaders ab st) as [[hs|e] st2] eqn:Hg; [|by intros [= ]].
    intros [= <- <-]. unfold IBT.varHeadersNamesList. simpl.
    assert (is_Some (IBT.header st2)) as [h2 ->]; [|done].
    unfold IBT.getVarHeaders in Hg. rewrite Hh in Hg.
    destruct (IBT.varHeaders st), (IBT.sharedMem st) as [mem|];
      try (injection Hg as _ <-; rewrite Hh; by eexists).
    destruct (Header.numVars ab h) as [n|e]; [|done].
    destruct (foldl _ _ _) as [[u|e] st3] eqn:Hf; [|done].
    injection Hg as _ <-.
    change st3 with (Return u, st3).2. rewrite <- Hf.
    rewrite IBT_getVarHeaders_loop_header. simpl. rewrite ?Hh. by eexists.
Qed.

Lemma varHeadersNamesList_memoized_witness :
  let st1 := (IBT.varHeadersNamesList sample_ibt
                (IBT.open "lap.ibt" sample_ibt IBT.new)).2 in
  IBT.varHeadersNamesList [] st1 = (Return (Some ["Speed"%string]), st1).
Proof.
  intros st1.
  apply (varHeadersNamesList_memoized sample_ibt [] (IBT.open "lap.ibt" sample_ibt IBT.new)).
  vm_compute. reflexivity.
Defined.

(** ** Reading records of a replay file *)

(** X7. From the bytes of a file to the value of a record.  After [open]
    and a first read of [varHeadersNamesList], with a readable header and
    sub-header and at least one buffer descriptor, [get(index, name)] for an
    index in [0, sessionRecordCount) and the name of a scalar descriptor of
    type [t] (the last one of that name) returns the value that the
    [typeSize t] bytes at
    [descriptor.offset + firstBufferDataOffset + index * bufLen] denote,
    provided those bytes lie inside the file. *)
Theorem IBT_get_decodes_record (path : string) (fileData : bytes)
    (nv vo nb bl bo n i o index : Z) (t : type_tag) (key : string) :
  let mem := whole fileData in
  let h := mkStruct mem 0 in
  let descriptor := fun j => mkStruct mem (vo + j * 144) in
  let st := (IBT.varHeadersNamesList fileData (IBT.open path fileData IBT.new)).2 in
  Header.numVars fileData h = Return nv ->
  Header.varHeaderOffset fileData h = Return vo ->
  Header.numBuf fileData h = Return nb -> 1 <= nb ->
  Header.bufLen fileData h = Return bl ->
  readInt32LE fileData 52 = Return bo ->
  DiskSubHeader.sessionRecordCount fileData (mkStruct mem 112) = Return n ->
  0 <= i < nv ->
  VarHeader.name fileData (descriptor i) = key ->
  (forall j, i < j < nv -> VarHeader.name fileData (descriptor j) <> key) ->
  VarHeader.type fileData (descriptor i) = Return (tag_code t) ->
  VarHeader.offset fileData (descriptor i) = Return o ->
  VarHeader.count fileData (descriptor i) = Return 1 ->
  0 <= index < n ->
  0 <= o + bo + index * bl ->
  o + bo + index * bl + typeSize t <= Z.of_nat (length fileData) ->
  IBT.get fileData st index key
  = Return (decode_le t (bytes_at fileData (o + bo + index * bl) (typeSize t))).
Proof.
  intros mem h descriptor st Hnv Hvo Hnb Hnb1 Hbl Hbo Hn Hi Hname Hlast
         Hty Ho Hc Hidx Hlo Hhi.
  assert (IBT.varHeadersDict st !! key = Some (descriptor i)) as Hkey.
  { unfold st. rewrite (IBT_loaded_state path fileData nv vo) by done. simpl.
    replace nv with (i + (1 + (nv - i - 1))) by lia.
    rewrite seqZ_app by lia. rewrite (seqZ_cons (0 + i)) by lia. simpl.
    replace (0 + i) with i by lia.
    apply dict_inserts_last; [done|].
    intros j Hj. apply elem_of_seqZ in Hj. apply Hlast. lia. }
  assert (IBT.header st = Some h /\ IBT.diskHeader st = Some (mkStruct mem 112)
          /\ IBT.sharedMem st = Some mem) as (Hh & Hd & Hm).
  { unfold st. by rewrite (IBT_loaded_state path fileData nv vo). }
  rewrite (IBT_get_in_range fileData st h (mkStruct mem 112) mem key (descriptor i)
             n (tag_code t) o 1 bl bo nb); try done.
  - unfold unpackValues. simpl. unfold mem. rewrite contents_whole.
    by apply unpackValue_in_bounds.
  - unfold h, mem. simpl. by rewrite getInt_whole.
Qed.

Lemma IBT_get_decodes_record_witness :
  IBT.get sample_ibt
    (IBT.varHeadersNamesList sample_ibt (IBT.open "lap.ibt" sample_ibt IBT.new)).2
    1 "Speed"
  = Return (decode_le tag_float32 (bytes_at sample_ibt 292 4)).
Proof.
  apply (IBT_get_decodes_record "lap.ibt" sample_ibt 1 144 1 4 288 2 0 0 1
           tag_float32 "Speed");
    try (vm_compute; reflexivity); try lia.
  vm_compute. intros H. discriminate H.
Defined.

(** X8. [operator_getitem(key)] is the last record.  For a name the reader
    knows, in a file whose header fields can be read, it returns the last
    element of what [getAll(key)] returns, and [null] when the file holds
    no record. *)
Theorem operator_getitem_is_last_record (ab : bytes) (st : IBT.t) (h : Header.t)
    (dh : DiskSubHeader.t) (mem : Buffer) (key : string) (vh : VarHeader.t) (n : Z) :
  IBT.header st = Some h -> IBT.diskHeader st = Some dh ->
  IBT.sharedMem st = Some mem ->
  IBT.varHeadersDict st !! key = Some vh ->
  layout_readable ab h dh vh ->
  DiskSubHeader.sessionRecordCount ab dh = Return n ->
  (n <= 0 -> IBT.operator_getitem ab st key = Return VNull) /\
  (1 <= n -> forall l, IBT.getAll ab st key = Return (VArray l) ->
     exists v, last l = Some v /\ IBT.operator_getitem ab st key = Return v).
Proof.
  intros Hh Hd Hm Hk ([n' Hn'] & [ty Hty] & [o Ho] & [c Hc] & [bl Hbl]
                      & (nb & Hnb & Hnb1) & [bo Hbo]) Hn.
  unfold IBT.operator_getitem. rewrite Hd, Hn. simpl. split.
  - intros Hle. apply (IBT_get_absent ab st dh n); [done|done|]. left. lia.
  - intros Hge l Hl.
    rewrite (IBT_getAll_known ab st h dh mem key vh n ty o c bl bo nb) in Hl by done.
    destruct (mapM _ (seqZ 0 n)) as [k|e] eqn:Hmap; [|done].
    simpl in Hl. injection Hl as ->.
    apply mapM_Return_inv in Hmap as [Hlen Hnth].
    rewrite length_seqZ in Hlen.
    destruct (Hnth (Z.to_nat (n - 1)) (n - 1)) as (v & Hv & Hu).
    { rewrite lookup_seqZ_lt by lia. f_equal. lia. }
    exists v. split.
    + rewrite last_lookup. rewrite <- Hv. f_equal. lia.
    + rewrite (IBT_get_in_range ab st h dh mem key vh n ty o c bl bo nb) by (done || lia).
      done.
Qed.

Lemma operator_getitem_is_last_record_witness :
  let st := (IBT.varHeadersNamesList sample_ibt
               (IBT.open "lap.ibt" sample_ibt IBT.new)).2 in
  IBT.operator_getitem sample_ibt st "Speed"
  = Return (VFloat (S754_finite false 12582912 (-20))).
Proof.
  intros st.
  destruct (operator_getitem_is_last_record sample_ibt st
              (mkStruct (whole sample_ibt) 0) (mkStruct (whole sample_ibt) 112)
              (whole sample_ibt) "Speed" (mkStruct (whole sample_ibt) 144) 2)
    as [_ H].
  - reflexivity.
  - reflexivity.
  - reflexivity.
  - vm_compute. reflexivity.
  - repeat split; try (eexists; vm_compute; reflexivity).
    exists 1. split; [vm_compute; reflexivity|lia].
  - vm_compute. reflexivity.
  - destruct (H ltac:(lia) [VFloat (S754_finite false 10485760 (-20));
                            VFloat (S754_finite false 12582912 (-20))])
      as (v & Hlast & Hv).
    + vm_compute. reflexivity.
    + simpl in Hlast. injection Hlast as <-. exact Hv.
Defined.

(** ** Where an extracted section lies *)

Lemma occurs_at_lookup (mem pat : bytes) (i : Z) (m : nat) (b : byte) :
  occurs_at mem pat i -> pat !! m = Some b -> mem !! (Z.to_nat i + m)%nat = Some b.
Proof.
  intros [Hi Ht] Hm. rewrite <- Ht in Hm.
  rewrite lookup_take_Some in Hm. destruct Hm as [Hm _].
  by rewrite lookup_drop in Hm.
Qed.

(** X9. Where an extracted section lies.  A block no longer than the header
    pattern gives no section.  A section that is returned is a view inside
    the region and inside the block, it starts right after a newline, past
    the first byte of the block, and, for a name without a newline, its
    bytes begin with the section name and the colon: the header line is
    always part of the result. *)
Theorem extractYamlSection_within_block (region : bytes) (offset len : Z)
    (sectionName : string) :
  (len <= Z.of_nat (length (section_header sectionName)) ->
   extractYamlSection region (whole region) offset len sectionName = None) /\
  (forall r, extractYamlSection region (whole region) offset len sectionName = Some r ->
     (byteOffset r + blength r <= length region)%nat /\
     offset + 1 <= Z.of_nat (byteOffset r) /\
     Z.of_nat (byteOffset r + blength r) <= offset + len /\
     (1 <= blength r)%nat /\
     region !! (byteOffset r - 1)%nat = Some x0a /\
     (x0a ∉ utf8 sectionName ->
      utf8 sectionName ++ [x3a] `prefix_of` contents region r)).
Proof.
  pose proof (section_header_nonempty sectionName) as Hpat.
  pose proof (section_header_bytes sectionName) as Hbytes.
  set (pat := section_header sectionName) in *.
  assert (length pat = S (S (S (length (utf8 sectionName))))) as Hplen.
  { rewrite Hbytes. simpl. rewrite length_app. simpl. lia. }
  split.
  - intros Hlen. unfold extractYamlSection. fold pat.
    unfold first_match.
    replace (Z.to_nat (offset + len - Z.of_nat (length pat) - offset)) with 0%nat by lia.
    done.
  - intros r. unfold extractYamlSection. fold pat. rewrite contents_whole.
    destruct (first_match region pat offset _) as [i|] eqn:Hscan; [|done].
    apply scan_Some in Hscan as (Hir & Him & _).
    apply matches_at_occurs in Him; [|done].
    destruct (occurs_at_bounds region pat i Hpat Him) as [Hi0 Hib].
    set (matchEnd := match first_match region section_end (i + 1 + 1) _ with
                     | Some j => j | None => offset + len end).
    assert (i + 2 <= matchEnd /\ matchEnd <= offset + len /\
            (x0a ∉ utf8 sectionName ->
             i + 2 + Z.of_nat (length (utf8 sectionName)) <= matchEnd)) as (Hm1 & Hm2 & Hm3).
    { unfold matchEnd.
      destruct (first_match region section_end (i + 1 + 1) _) as [j|] eqn:Hscan2.
      - apply scan_Some in Hscan2 as (Hjr & Hjm & _).
        change (Z.of_nat (length section_end)) with 2 in Hjr.
        apply matches_at_occurs in Hjm; [|done].
        split; [lia|]. split; [lia|].
        intros Hnl.
        destruct (decide (i + 2 + Z.of_nat (length (utf8 sectionName)) <= j)) as [|Hlt];
          [done|]. exfalso.
        (* the byte at [j] is a newline, yet it is a byte of the name or the colon *)
        assert (region !! Z.to_nat j = Some x0a) as Hj0.
        { replace (Z.to_nat j) with (Z.to_nat j + 0)%nat by lia.
          by apply (occurs_at_lookup region section_end j 0 x0a). }
        assert (exists m b, (1 <= m <= S (length (utf8 sectionName)))%nat /\
                            Z.to_nat j = (Z.to_nat i + m)%nat /\ pat !! m = Some b /\ b <> x0a)
          as (m & b & Hmr & Hjm' & Hpm & Hbn).
        { exists (Z.to_nat (j - i)).
          destruct (decide (Z.to_nat (j - i) = S (length (utf8 sectionName)))) as [E|E].
          - exists x3a. split; [lia|]. split; [lia|]. split; [|done].
            rewrite Hbytes, E. simpl. rewrite lookup_app_r by lia.
            by rewrite Nat.sub_diag.
          - destruct (lookup_lt_is_Some_2 (utf8 sectionName) (Z.to_nat (j - i) - 1))
              as [b Hb]; [lia|].
            exists b. split; [lia|]. split; [lia|]. split.
            + rewrite Hbytes.
              replace (Z.to_nat (j - i)) with (S (Z.to_nat (j - i) - 1)) by lia.
              simpl. by rewrite lookup_app_l by lia.
            + intros ->. apply Hnl. by apply list_elem_of_lookup_2 in Hb. }
        pose proof (occurs_at_lookup region pat i m b Him Hpm) as Hjb.
        rewrite <- Hjm' in Hjb. congruence.
      - split; [lia|]. split; [lia|]. intros _. lia. }
    intros [= <-].
    unfold Buffer_slice, whole. cbn [byteOffset blength].
    rewrite !adjustOffset_nonneg by lia.
    rewrite (Z.min_l (i + 1)) by lia.
    destruct (Z.ltb_spec (i + 1) (Z.min matchEnd (Z.of_nat (length region)))); [|lia].
    split; [lia|]. split; [lia|]. split; [lia|]. split; [lia|].
    split.
    { replace (0 + Z.to_nat (i + 1) - 1)%nat with (Z.to_nat i + 0)%nat by lia.
      apply (occurs_at_lookup region pat i 0 x0a Him). by rewrite Hbytes. }
    intros Hnl. specialize (Hm3 Hnl).
    unfold contents. cbn [byteOffset blength].
    set (C := take _ (drop _ region)).
    exists (drop (S (length (utf8 sectionName))) C).
    rewrite <- (take_drop (S (length (utf8 sectionName))) C) at 1.
    f_equal. apply list_eq. intros m.
    destruct (decide (m < S (length (utf8 sectionName)))%nat) as [Hm|Hm].
    + rewrite lookup_take_lt by done. unfold C.
      rewrite lookup_take_lt by lia. rewrite lookup_drop.
      destruct (lookup_lt_is_Some_2 (utf8 sectionName ++ [x3a]) m) as [b Hb].
      { rewrite length_app. simpl. lia. }
      rewrite Hb.
      replace (0 + Z.to_nat (i + 1) + m)%nat with (Z.to_nat i + S m)%nat by lia.
      apply (occurs_at_lookup region pat i (S m) b Him).
      rewrite Hbytes. simpl.
      change [x3a; x0a] with ([x3a] ++ [x0a]). rewrite app_assoc.
      rewrite lookup_app_l; [done|]. rewrite length_app. simpl. lia.
    + rewrite lookup_take_ge by lia. symmetry. apply lookup_ge_None.
      rewrite length_app. simpl. lia.
Qed.

Lemma extractYamlSection_within_block_witness :
  extractYamlSection sample_block (whole sample_block) 0 14 "WeekendInfo" = None /\
  exists r, extractYamlSection sample_block (whole sample_block) 0
              (Z.of_nat (length sample_block)) "WeekendInfo" = Some r /\
            utf8 "WeekendInfo" ++ [x3a] `prefix_of` contents sample_block r.
Proof.
  split.
  - apply (proj1 (extractYamlSection_within_block sample_block 0 14 "WeekendInfo")).
    simpl. lia.
  - eexists. split; [vm_compute; reflexivity|].
    destruct (proj2 (extractYamlSection_within_block sample_block 0
                       (Z.of_nat (length sample_block)) "WeekendInfo")
                    _ eq_refl) as (_ & _ & _ & _ & _ & H).
    apply H. vm_compute. intros Hin.
    repeat (apply elem_of_cons in Hin as [Hin|Hin]; [discriminate Hin|]).
    by apply elem_of_nil in Hin.
Defined.

(** ** Session text that needs no repair *)

Lemma translateYamlData_until_null (data : bytes) :
  translateYamlData data = latin1 (until_null (map substituted data)).
Proof.
  unfold translateYamlData. by rewrite translate_table_substituted, truncate_at_null.
Qed.

Lemma until_null_length (l : bytes) : (length (until_null l) <= length l)%nat.
Proof.
  induction l as [|b l IH]; simpl; [done|].
  destruct (decide (b = x00)); simpl; lia.
Qed.

(** X10. [translateYamlData] never lengthens its input, and a text without
    null bytes and without the five bytes of the substitution table (all
    printable ASCII text, for one) comes out as the very same characters. *)
Theorem translateYamlData_keeps_clean_text (data : bytes) (s : string) :
  (String.length (translateYamlData data) <= length data)%nat /\
  ((forall b, b ∈ list_byte_of_string s ->
      b <> x00 /\ byteZ b ∉ [0x81; 0x8d; 0x8f; 0x90; 0x9d]) ->
   translateYamlData (list_byte_of_string s) = s).
Proof.
  split.
  - rewrite translateYamlData_until_null. unfold latin1.
    rewrite string_of_list_byte_length.
    etransitivity; [apply until_null_length|]. by rewrite length_map.
  - intros Hclean. rewrite translateYamlData_until_null.
    assert (map substituted (list_byte_of_string s) = list_byte_of_string s) as ->.
    { rewrite <- (map_id (list_byte_of_string s)) at 2.
      apply map_ext_in. intros b Hb. apply list_elem_of_In in Hb.
      destruct (Hclean b Hb) as [_ Ht]. unfold substituted.
      by rewrite bool_decide_eq_false_2. }
    rewrite <- (app_nil_r (list_byte_of_string s)) at 1.
    change (@nil byte) with (zeros 0). rewrite until_null_padded.
    + apply string_of_list_byte_of_string.
    + intros Hin. by destruct (Hclean x00 Hin).
Qed.

Lemma translateYamlData_keeps_clean_text_witness :
  translateYamlData (list_byte_of_string "TrackName: road atlanta")
  = "TrackName: road atlanta"%string.
Proof.
  apply (proj2 (translateYamlData_keeps_clean_text [] "TrackName: road atlanta")).
  intros b Hb. vm_compute in Hb.
  repeat (apply elem_of_cons in Hb as [->|Hb];
          [split; [discriminate|apply (bool_decide_unpack _); vm_compute; exact I]|]).
  by apply elem_of_nil in Hb.
Defined.

(** ** The repaired text *)

Lemma string_all_app (P : ascii -> bool) (a b : string) :
  string_all P (a ++ b) = string_all P a && string_all P b.
Proof. induction a as [|c a IH]; simpl; [done|]. by rewrite IH, andb_assoc. Qed.

Lemma strip_controls_all (s : string) :
  string_all (fun c => negb (is_stripped c)) (strip_controls s) = true.
Proof.
  induction s as [|c s IH]; simpl; [done|].
  destruct (is_stripped c) eqn:E; simpl; [done|]. by rewrite E.
Qed.

Lemma requote_all (P : ascii -> bool) (start : string -> option nat)
    (esc : ascii -> string) (st : rstate) (s : string) :
  P dquote = true ->
  (forall c, P c = true -> string_all P (esc c) = true) ->
  string_all P s = true ->
  string_all P (requote start esc st s) = true.
Proof.
  intros Hq Hesc. revert st. induction s as [|c s IH]; intros st Hs.
  - destruct st; simpl; by rewrite ?Hq.
  - simpl in Hs. apply andb_true_iff in Hs as [Hc Hs].
    destruct st as [|k|].
    + cbn [requote]. destruct (start (String c s)) as [[|[|k]]|]; simpl;
        rewrite ?Hc, ?Hq, ?IH; done.
    + destruct k as [|[|k]]; simpl; rewrite ?Hc, ?Hq, ?IH; done.
    + cbn [requote]. destruct (is_line_terminator c); simpl.
      * by rewrite Hq, Hc, IH.
      * by rewrite string_all_app, Hesc, IH.
Qed.

(** X11. The text handed to the YAML parser holds no control character:
    after [clean_yaml], the three repairs of [parseIRSDKYaml], no character
    of the classes 0x00-0x08, 0x0B-0x0C, 0x0E-0x1F and 0x7F is left,
    whatever the input. *)
Theorem clean_yaml_no_control_characters (yamlStr : string) :
  string_all (fun c => negb (is_stripped c)) (clean_yaml yamlStr) = true.
Proof.
  unfold clean_yaml.
  apply requote_all; [done| |].
  { intros c Hc. unfold no_escape. simpl. by rewrite Hc. }
  apply requote_all; [done| |].
  { intros c Hc. unfold escape_char.
    destruct (_ || _); simpl; by rewrite Hc. }
  apply strip_controls_all.
Qed.












(** ** Freezing the live region *)

Lemma sort_desc_first {A} (l : list (Z * A)) :
  l <> [] ->
  exists x rest,
    sort_desc l = x :: rest /\ l ≡ₚ x :: rest /\ forall z, z ∈ rest -> z.1 <= x.1.
Proof.
  intros Hne. pose proof (sort_desc_perm l) as Hp.
  pose proof (sort_desc_sorted l) as Hs.
  destruct (sort_desc l) as [|x rest] eqn:E.
  - apply Permutation_nil_l in Hp. done.
  - exists x, rest. split; [done|]. split; [by symmetry|].
    apply StronglySorted_inv in Hs as [_ Hx].
    intros z Hz. rewrite Forall_forall in Hx. by apply Hx.
Qed.

Lemma sort_by_tick_first (ab : bytes) (bufs : list VarBuffer.t) :
  bufs <> [] ->
  (forall b, b ∈ bufs -> returns (VarBuffer.tickCount ab b)) ->
  exists top rest ttop,
    sort_by_tick ab bufs = Return (top :: rest) /\
    bufs ≡ₚ top :: rest /\
    VarBuffer.tickCount ab top = Return ttop /\
    forall b, b ∈ rest ->
      exists t, VarBuffer.tickCount ab b = Return t /\ t <= ttop.
Proof.
  intros Hne Hread.
  destruct bufs as [|b1 [|b2 bufs]]; [done| |].
  { destruct (Hread b1) as [t Ht]; [left|].
    exists b1, [], t. split; [done|]. split; [done|]. split; [done|].
    intros b Hb. by apply elem_of_nil in Hb. }
  set (l := b1 :: b2 :: bufs) in *.
  destruct (mapM_returns (VarBuffer.tickCount ab) l Hread) as [ticks Hticks].
  destruct (mapM_Return_inv _ _ _ Hticks) as [Hl Hnth].
  assert (forall t b, (t, b) ∈ zip ticks l -> VarBuffer.tickCount ab b = Return t) as Hz.
  { intros t b Hin. apply list_elem_of_lookup in Hin as [i Hi].
    apply lookup_zip_with_Some in Hi as (t' & b' & [= <- <-] & Ht & Hb).
    destruct (Hnth i b Hb) as (y & Hy & Hr). congruence. }
  destruct (sort_desc_first (zip ticks l)) as (x & rest & Hs & Hp & Hrest).
  { destruct ticks; [done|]. done. }
  exists x.2, (map snd rest), x.1.
  split.
  { unfold sort_by_tick, l. fold l. rewrite Hticks. simpl. by rewrite Hs. }
  split.
  { rewrite <- (snd_zip ticks l) at 1 by lia.
    change (x.2 :: map snd rest) with (map snd (x :: rest)).
    by apply fmap_Permutation. }
  assert (x ∈ zip ticks l) as Hx by (rewrite Hp; left).
  split; [apply Hz; by destruct x|].
  intros b Hb. apply list_elem_of_fmap in Hb as ([t b'] & -> & Hin).
  exists t. split.
  - apply Hz. rewrite Hp. by right.
  - by apply (Hrest (t, b')).
Qed.

Lemma IRSDK_unfreeze_header (st : IRSDK.t) :
  IRSDK.header (IRSDK.unfreezeVarBufferLatest st) = IRSDK.header st.
Proof. unfold IRSDK.unfreezeVarBufferLatest. by destruct (IRSDK.varBufferLatest st). Qed.

Lemma IRSDK_unfreeze_latest (st : IRSDK.t) :
  IRSDK.varBufferLatest (IRSDK.unfreezeVarBufferLatest st) = None.
Proof.
  unfold IRSDK.unfreezeVarBufferLatest.
  by destruct (IRSDK.varBufferLatest st) eqn:E.
Qed.

Lemma IRSDK_set_latest_unfrozen (st : IRSDK.t) :
  IRSDK.varBufferLatest st = None -> IRSDK.set_varBufferLatest None st = st.
Proof. destruct st. simpl. by intros ->. Qed.

Lemma IRSDK_unfreeze_set (v : option VarBuffer.t) (st : IRSDK.t) :
  IRSDK.varBufferLatest st = None ->
  IRSDK.unfreezeVarBufferLatest (IRSDK.set_varBufferLatest v st) = st.
Proof.
  intros H. destruct st. simpl in H. subst.
  unfold IRSDK.unfreezeVarBufferLatest. by destruct v.
Qed.

(** X13. A freeze takes the buffer with the highest tick.  With a header
    that names at least one rotating buffer, and the tick counters and
    buffer offsets readable, [freezeVarBufferLatest] returns; the buffer it
    holds afterwards, and every later [getVarBufferLatest], is one whose
    tick no other buffer exceeds, frozen, with buffer offset 0 and with the
    [bufLen] bytes of the region from its data offset on as memory. *)
Theorem freeze_selects_highest_tick (ab : bytes) (st : IRSDK.t) (h : Header.t)
    (nb bl : Z) :
  IRSDK.header st = Some h ->
  Header.numBuf ab h = Return nb -> Header.bufLen ab h = Return bl -> 1 <= nb ->
  let bufs := map (fun i => VarBuffer.new (_sharedMem h) (48 + i * 16) bl) (seqZ 0 nb) in
  (forall b, b ∈ bufs -> returns (VarBuffer.tickCount ab b)) ->
  (forall b, b ∈ bufs -> returns (VarBuffer._bufOffset ab b)) ->
  exists top ttop o frozen,
    top ∈ bufs /\
    VarBuffer.tickCount ab top = Return ttop /\
    (forall b t, b ∈ bufs -> VarBuffer.tickCount ab b = Return t -> t <= ttop) /\
    VarBuffer._bufOffset ab top = Return o /\
    frozen = VarBuffer.mk (VarBuffer.base top) bl true
               (Some (Buffer_slice (_sharedMem h) o (o + bl))) /\
    IRSDK.freezeVarBufferLatest ab st
    = (Return (), IRSDK.set_varBufferLatest (Some frozen)
                    (IRSDK.unfreezeVarBufferLatest st)) /\
    (forall ab', IRSDK.getVarBufferLatest ab' (IRSDK.freezeVarBufferLatest ab st).2
                 = Return (Some frozen)) /\
    VarBuffer.getMemory frozen = Buffer_slice (_sharedMem h) o (o + bl) /\
    VarBuffer.bufOffset ab frozen = Return 0.
Proof.
  intros Hh Hnb Hbl Hge bufs Hticks Hoffs.
  pose proof (Header_varBuf_returns ab h nb bl Hnb Hbl) as Hvb. fold bufs in Hvb.
  destruct (sort_by_tick_first ab bufs) as (top & rest & ttop & Hs & Hp & Htop & Hrest).
  { unfold bufs. rewrite (seqZ_cons 0 nb) by lia. done. }
  { done. }
  assert (top ∈ bufs) as Hin by (rewrite Hp; left).
  destruct (Hoffs top Hin) as [o Ho].
  assert (VarBuffer._bufLen top = bl /\ _sharedMem (VarBuffer.base top) = _sharedMem h)
    as [Htl Htm].
  { unfold bufs in Hin. apply list_elem_of_fmap in Hin as (i & -> & _). done. }
  set (frozen := VarBuffer.mk (VarBuffer.base top) bl true
                   (Some (Buffer_slice (_sharedMem h) o (o + bl)))).
  assert (IRSDK.freezeVarBufferLatest ab st
          = (Return (), IRSDK.set_varBufferLatest (Some frozen)
                          (IRSDK.unfreezeVarBufferLatest st))) as Hf.
  { unfold IRSDK.freezeVarBufferLatest. rewrite IRSDK_unfreeze_header, Hh, Hvb.
    unfold mbind at 1, outcome_bind at 1. rewrite Hs. simpl lookup.
    unfold VarBuffer.freeze. rewrite Ho. unfold mbind, outcome_bind.
    by rewrite Htl, Htm. }
  exists top, ttop, o, frozen. repeat split; try done.
  - intros b t Hb Ht. rewrite Hp in Hb. apply elem_of_cons in Hb as [->|Hb].
    + assert (t = ttop) by congruence. lia.
    + destruct (Hrest b Hb) as (t' & Ht' & Hle). assert (t = t') by congruence. lia.
  - intros ab'. by rewrite Hf.
Qed.

Lemma freeze_selects_highest_tick_witness :
  exists top frozen,
    VarBuffer.tickCount sample_live top = Return 6 /\
    IRSDK.getVarBufferLatest sample_live
      (IRSDK.freezeVarBufferLatest sample_live
         (IRSDK.startup "region.bin" sample_live IRSDK.new).2).2
    = Return (Some frozen) /\
    VarBuffer.base frozen = VarBuffer.base top.
Proof.
  destruct (freeze_selects_highest_tick sample_live
              (IRSDK.startup "region.bin" sample_live IRSDK.new).2
              (mkStruct (whole sample_live) 0) 2 64)
    as (top & ttop & o & frozen & Hin & Htop & Hmax & Ho & Hfz & Hf & Hget & _).
  - reflexivity.
  - vm_compute. reflexivity.
  - vm_compute. reflexivity.
  - lia.
  - intros b Hb. simpl in Hb.
    apply elem_of_cons in Hb as [->|Hb]; [eexists; vm_compute; reflexivity|].
    apply elem_of_cons in Hb as [->|Hb]; [eexists; vm_compute; reflexivity|].
    by apply elem_of_nil in Hb.
  - intros b Hb. simpl in Hb.
    apply elem_of_cons in Hb as [->|Hb]; [eexists; vm_compute; reflexivity|].
    apply elem_of_cons in Hb as [->|Hb]; [eexists; vm_compute; reflexivity|].
    by apply elem_of_nil in Hb.
  - exists top, frozen. split; [|split; [apply Hget|by rewrite Hfz]].
    assert (6 <= ttop) as Hge.
    { apply (Hmax (VarBuffer.new (whole sample_live) 64 64)).
      - simpl. right. left.
      - vm_compute. reflexivity. }
    simpl in Hin.
    apply elem_of_cons in Hin as [->|Hin].
    { assert (ttop = 5) by (vm_compute in Htop; congruence). lia. }
    apply elem_of_cons in Hin as [->|Hin]; [vm_compute; reflexivity|].
    by apply elem_of_nil in Hin.
Defined.

(** X14. Freezing and unfreezing compose.  A freeze changes nothing but
    the held buffer: unfreezing afterwards gives the reader that
    unfreezing alone gives, whether the freeze returned or threw.  Freezing
    a second time over the same bytes is the same as freezing once, and
    unfreezing twice the same as unfreezing once. *)
Theorem freeze_unfreeze_compose (ab : bytes) (st : IRSDK.t) :
  IRSDK.unfreezeVarBufferLatest (IRSDK.freezeVarBufferLatest ab st).2
  = IRSDK.unfreezeVarBufferLatest st /\
  IRSDK.freezeVarBufferLatest ab (IRSDK.freezeVarBufferLatest ab st).2
  = IRSDK.freezeVarBufferLatest ab st /\
  IRSDK.unfreezeVarBufferLatest (IRSDK.unfreezeVarBufferLatest st)
  = IRSDK.unfreezeVarBufferLatest st.
Proof.
  assert (IRSDK.unfreezeVarBufferLatest (IRSDK.unfreezeVarBufferLatest st)
          = IRSDK.unfreezeVarBufferLatest st) as Hidem.
  { unfold IRSDK.unfreezeVarBufferLatest at 1.
    by rewrite IRSDK_unfreeze_latest. }
  assert (IRSDK.unfreezeVarBufferLatest (IRSDK.freezeVarBufferLatest ab st).2
          = IRSDK.unfreezeVarBufferLatest st) as Hu.
  { pose proof (IRSDK_unfreeze_latest st) as Hn.
    unfold IRSDK.freezeVarBufferLatest.
    destruct (IRSDK.header (IRSDK.unfreezeVarBufferLatest st)); [|exact Hidem].
    destruct (_ ≫= _) as [sorted|e]; [|exact Hidem].
    destruct (sorted !! 0%nat) as [vb|]; [|exact Hidem].
    destruct (VarBuffer.freeze ab vb); simpl; by apply IRSDK_unfreeze_set. }
  split; [exact Hu|]. split; [|exact Hidem].
  unfold IRSDK.freezeVarBufferLatest at 1. rewrite Hu. reflexivity.
Qed.

(** ** Starting up on a dump of the region *)

(** X15. What [startup] answers on a fresh reader.  It never throws; it
    answers [true] exactly when the header can be read with a version of at
    least 1 and at least one rotating buffer, and the flag it leaves is its
    answer.  A region shorter than 40 bytes is always refused, and after a
    refusal every [get] answers [undefined]. *)
Theorem startup_answer (file : string) (ab : bytes) :
  let r := IRSDK.startup file ab IRSDK.new in
  let h := mkStruct (whole ab) 0 in
  (r.1 = true
   <-> exists v nb, Header.version ab h = Return v /\ 1 <= v /\
                    Header.numBuf ab h = Return nb /\ 1 <= nb /\
                    returns (Header.bufLen ab h)) /\
  IRSDK.isInitialized r.2 = r.1 /\
  IRSDK.header r.2 = Some h /\
  ((length ab < 40)%nat -> r.1 = false) /\
  (r.1 = false ->
   forall getSessionInfo ab' key,
     IRSDK.get getSessionInfo ab' r.2 key = (Return VUndefined, r.2)).
Proof.
  intros r h.
  assert (r.1 = true
   <-> exists v nb, Header.version ab h = Return v /\ 1 <= v /\
                    Header.numBuf ab h = Return nb /\ 1 <= nb /\
                    returns (Header.bufLen ab h)) as Hiff.
  { unfold r, IRSDK.startup. simpl IRSDK.sharedMem. cbv iota beta. fold h.
    split.
    - destruct (Header.version ab h) as [v|e] eqn:Hv; [|done].
      unfold mbind at 1, outcome_bind at 1.
      destruct (1 <=? v) eqn:Hle; [|done]. apply Z.leb_le in Hle.
      destruct (Header.varBuf ab h) as [bufs|e] eqn:Hb; [|done].
      unfold mbind, outcome_bind. cbn [fst]. intros Hlen.
      apply bool_decide_eq_true in Hlen.
      unfold Header.varBuf in Hb.
      destruct (Header.numBuf ab h) as [nb|e] eqn:Hn; [|done].
      unfold mbind at 1, outcome_bind at 1 in Hb.
      destruct (mapM_Return_inv _ _ _ Hb) as [Hl Hnth].
      rewrite length_seqZ in Hl.
      exists v, nb. repeat split; [done|lia|].
      destruct (Hnth 0%nat 0) as (y & _ & Hy).
      { apply lookup_seqZ. lia. }
      destruct (Header.bufLen ab h) as [bl|e]; [by eexists|done].
    - intros (v & nb & -> & Hv & Hn & Hnb & [bl Hbl]).
      rewrite (Header_varBuf_returns ab h nb bl Hn Hbl).
      unfold mbind, outcome_bind. apply Z.leb_le in Hv. rewrite Hv. cbn [fst].
      apply bool_decide_eq_true. rewrite length_map, length_seqZ. lia. }
  assert (IRSDK.isInitialized r.2 = r.1 /\ IRSDK.header r.2 = Some h) as [Hflag Hhd].
  { unfold r, IRSDK.startup. simpl IRSDK.sharedMem. cbv iota beta. fold h.
    by destruct (_ ≫= _). }
  split; [exact Hiff|]. split; [exact Hflag|]. split; [exact Hhd|]. split.
  - intros Hlen. destruct (r.1) eqn:E; [|done]. exfalso.
    destruct (proj1 Hiff eq_refl) as (v & nb & Hv & _ & Hn & Hnb & [bl Hbl]).
    assert (returns (Header.bufLen ab h)) as Hr by by eexists.
    unfold Header.bufLen, h in Hr. rewrite getInt_whole in Hr.
    apply readInt32LE_returns_iff in Hr. lia.
  - intros Hfalse gsi ab' key. unfold IRSDK.get. by rewrite Hflag, Hfalse.
Qed.

(** ** Reads of a frozen buffer *)

Lemma bytes_at_between (mem : bytes) (a len off n : Z) :
  0 <= a -> 0 <= off -> 0 <= n -> off + n <= len ->
  bytes_at (between mem a (a + len)) off n = bytes_at mem (a + off) n.
Proof.
  intros Ha Hoff Hn Hle. unfold bytes_at, between. f_equal.
  replace (a + len - a) with len by lia.
  rewrite skipn_firstn_comm, take_take, drop_drop.
  rewrite Nat.min_l by lia. f_equal. f_equal. lia.
Qed.

Lemma between_length (mem : bytes) (a len : Z) :
  0 <= a -> 0 <= len -> a + len <= Z.of_nat (length mem) ->
  Z.of_nat (length (between mem a (a + len))) = len.
Proof.
  intros Ha Hl Hle. unfold between. rewrite length_take, length_drop. lia.
Qed.

(** X16. A read of a frozen buffer stays inside the buffer.  While the
    reader holds a buffer frozen at data offset [o] with [bufLen] bytes, a
    [get] of a scalar variable decodes the bytes of the region at
    [o + descriptor.offset] when the value lies inside the buffer, and
    throws a RangeError when it does not, even where the region goes on
    past the end of the buffer. *)
Theorem frozen_get_within_buffer
    (getSessionInfo : bytes -> IRSDK.t -> string -> outcome value * IRSDK.t)
    (ab : bytes) (st : IRSDK.t) (h : Header.t) (vh : VarHeader.t)
    (base : IRSDKStruct) (key : string) (o bl vo : Z) (t : type_tag) :
  IRSDK.isInitialized st = true -> IRSDK.header st = Some h ->
  IRSDK.varHeadersDict st !! key = Some vh ->
  IRSDK.varBufferLatest st
  = Some (VarBuffer.mk base bl true (Some (Buffer_slice (whole ab) o (o + bl)))) ->
  0 <= o -> 0 <= bl -> o + bl <= Z.of_nat (length ab) ->
  VarHeader.type ab vh = Return (tag_code t) ->
  VarHeader.offset ab vh = Return vo ->
  VarHeader.count ab vh = Return 1 ->
  (0 <= vo /\ vo + typeSize t <= bl ->
   IRSDK.get getSessionInfo ab st key
   = (Return (decode_le t (bytes_at ab (o + vo) (typeSize t))), st)) /\
  (~ (0 <= vo /\ vo + typeSize t <= bl) ->
   IRSDK.get getSessionInfo ab st key = (Throw RangeError, st)).
Proof.
  intros Hinit Hh Hkey Hvb Ho Hbl Hle Hty Hoff Hcnt.
  assert (IRSDK.get getSessionInfo ab st key
          = (unpackValue (between ab o (o + bl)) vo (typeChar_of (tag_code t)), st))
    as Hget.
  { unfold IRSDK.get. rewrite Hinit, Hh, Hkey.
    unfold IRSDK.getVarBufferLatest. rewrite Hvb.
    unfold VarBuffer.getMemory, VarBuffer.bufOffset. cbn [VarBuffer._isFrozen VarBuffer._frozenMemory].
    rewrite Hoff, Hty, Hcnt. unfold mbind, outcome_bind.
    rewrite contents_slice_whole_nonneg by lia.
    change (1 =? 1) with true. cbv iota. by rewrite Z.add_0_l. }
  pose proof (between_length ab o bl Ho Hbl Hle) as Hlen.
  assert (0 < typeSize t) as Hsz by (destruct t; simpl; lia).
  split.
  - intros [Hvo Hin]. rewrite Hget, unpackValue_in_bounds by lia.
    by rewrite bytes_at_between by lia.
  - intros Hout. rewrite Hget, unpackValue_out_of_bounds; [done|]. lia.
Qed.

Lemma frozen_get_within_buffer_witness :
  let st := (IRSDK.freezeVarBufferLatest sample_live
               (IRSDK.varHeadersNamesList sample_live
                  (IRSDK.startup "region.bin" sample_live IRSDK.new).2).2).2 in
  IRSDK.get (fun _ st _ => (Return VNull, st)) sample_live st "Speed"
  = (Return (decode_le tag_float32 (bytes_at sample_live 320 4)), st).
Proof.
  intros st.
  refine (proj1 (frozen_get_within_buffer _ sample_live st
                   (mkStruct (whole sample_live) 0) (mkStruct (whole sample_live) 112)
                   (mkStruct (whole sample_live) 64) "Speed" 320 64 0 tag_float32
                   _ _ _ _ _ _ _ _ _ _) _).
  - reflexivity.
  - reflexivity.
  - vm_compute. reflexivity.
  - vm_compute. reflexivity.
  - lia.
  - lia.
  - vm_compute. discriminate.
  - vm_compute. reflexivity.
  - vm_compute. reflexivity.
  - vm_compute. reflexivity.
  - simpl. lia.
Defined.

(** ** The tick of a replay file *)

(** X17. [varHeaderBufferTick] of a replay reader is the tick counter of
    the first buffer descriptor, the signed integer at bytes 48 to 51 of
    the file, when the header names at least one buffer; it is [null] when
    the header names none or the reader is closed, and a RangeError when
    the descriptor lies outside the file. *)
Theorem varHeaderBufferTick_first_descriptor (path : string) (fileData : bytes)
    (nb bl : Z) :
  let st := IBT.open path fileData IBT.new in
  let h := mkStruct (whole fileData) 0 in
  Header.numBuf fileData h = Return nb -> Header.bufLen fileData h = Return bl ->
  (1 <= nb ->
   IBT.varHeaderBufferTick fileData st = Some <$> readInt32LE fileData 48) /\
  (nb <= 0 -> IBT.varHeaderBufferTick fileData st = Return None) /\
  (forall ab', IBT.varHeaderBufferTick ab' (IBT.close st) = Return None).
Proof.
  intros st h Hnb Hbl. split; [|split].
  - intros Hge. unfold IBT.varHeaderBufferTick. simpl IBT.header. fold h.
    destruct (Header_varBuf_first fileData h nb bl Hnb Hbl Hge) as (bufs & -> & H0).
    unfold mbind, outcome_bind. rewrite H0.
    unfold VarBuffer.tickCount, VarBuffer.new. cbn [VarBuffer.base].
    unfold h. cbn [_sharedMem]. by rewrite getInt_whole.
  - intros Hle. unfold IBT.varHeaderBufferTick. simpl IBT.header. fold h.
    cbv iota beta. rewrite (Header_varBuf_returns fileData h nb bl Hnb Hbl).
    unfold mbind, outcome_bind. by rewrite seqZ_nil by lia.
  - done.
Qed.

Lemma varHeaderBufferTick_first_descriptor_witness :
  IBT.varHeaderBufferTick sample_ibt (IBT.open "session.ibt" sample_ibt IBT.new)
  = Some <$> readInt32LE sample_ibt 48.
Proof.
  refine (proj1 (varHeaderBufferTick_first_descriptor "session.ibt" sample_ibt 1 _ _ _) _).
  - vm_compute. reflexivity.
  - vm_compute. reflexivity.
  - lia.
Defined.

(** ** The car number of a broadcast *)

Lemma digit_cases (d : Z) :
  0 <= d <= 9 ->
  d = 0 \/ d = 1 \/ d = 2 \/ d = 3 \/ d = 4 \/ d = 5 \/ d = 6 \/ d = 7 \/ d = 8 \/ d = 9.
Proof. lia. Qed.

Ltac each_digit d H :=
  destruct (digit_cases d H) as [->|[->|[->|[->|[->|[->|[->|[->|[->| ->]]]]]]]]].

Lemma digit_of_digit_char (d : Z) : 0 <= d <= 9 -> digit_of (digit_char d) = Some d.
Proof. intros H. each_digit d H; reflexivity. Qed.

Lemma digit_char_not_space (d : Z) : 0 <= d <= 9 -> is_js_space (digit_char d) = false.
Proof. intros H. each_digit d H; reflexivity. Qed.

Lemma digit_char_not_sign (d : Z) :
  0 <= d <= 9 -> digit_char d <> "-"%char /\ digit_char d <> "+"%char.
Proof. intros H. each_digit d H; done. Qed.

Lemma digit_char_zero (d : Z) : 0 <= d <= 9 -> digit_char d = "0"%char <-> d = 0.
Proof. intros H. each_digit d H; done. Qed.

Lemma numeral_length (ds : list Z) : String.length (numeral ds) = length ds.
Proof. induction ds as [|d ds IH]; [done|]. simpl. by rewrite <- IH. Qed.

Lemma parse_digits_numeral (acc : option Z) (ds : list Z) :
  digits ds -> ds <> [] ->
  parse_digits acc (numeral ds) = Some (foldl (fun a d => 10 * a + d) (default 0 acc) ds).
Proof.
  intros Hd. revert acc. induction Hd as [|d ds Hr Hd IH]; intros acc Hne; [done|].
  change (numeral (d :: ds)) with (String (digit_char d) (numeral ds)).
  cbn [parse_digits]. rewrite digit_of_digit_char by done.
  destruct ds as [|d' ds]; [done|]. by rewrite IH.
Qed.

Lemma parseInt10_numeral (ds : list Z) :
  digits ds -> ds <> [] -> parseInt10 (numeral ds) = Some (numeral_value ds).
Proof.
  intros Hd Hne. pose proof (parse_digits_numeral None ds Hd Hne) as Hp.
  destruct ds as [|d ds]; [done|].
  pose proof (Forall_inv Hd) as Hr. simpl in Hr.
  change (numeral (d :: ds)) with (String (digit_char d) (numeral ds)) in *.
  unfold parseInt10. cbn [skip_space]. rewrite digit_char_not_space by done.
  destruct (digit_char_not_sign d Hr) as [Hm Hp'].
  by rewrite !bool_decide_eq_false_2.
Qed.

Lemma numeral_value_zeros (z : nat) (ds : list Z) :
  numeral_value (replicate z 0 ++ ds) = numeral_value ds.
Proof.
  unfold numeral_value. rewrite foldl_app. f_equal.
  induction z as [|z IH]; [done|]. simpl. exact IH.
Qed.

Lemma digits_zeros (z : nat) (ds : list Z) : digits ds -> digits (replicate z 0 ++ ds).
Proof.
  intros Hd. apply Forall_app. split; [|done].
  apply Forall_replicate. lia.
Qed.

Lemma strip_zeros_numeral (z : nat) (ds : list Z) :
  digits ds -> ds !! 0%nat <> Some 0 ->
  strip_zeros (numeral (replicate z 0 ++ ds)) = numeral ds.
Proof.
  intros Hd Hnz. induction z as [|z IH].
  - destruct ds as [|d ds]; [done|].
    pose proof (Forall_inv Hd) as Hr. simpl in Hr.
    change (numeral (replicate 0 0 ++ d :: ds)) with (String (digit_char d) (numeral ds)).
    cbn [strip_zeros]. rewrite bool_decide_eq_false_2; [done|].
    rewrite digit_char_zero by done. intros ->. by apply Hnz.
  - change (numeral (replicate (S z) 0 ++ ds))
      with (String "0"%char (numeral (replicate z 0 ++ ds))).
    cbn [strip_zeros]. by rewrite bool_decide_eq_true_2.
Qed.

Lemma numeral_value_range (ds : list Z) :
  digits ds -> ds !! 0%nat <> Some 0 ->
  match ds with
  | [] => numeral_value ds = 0
  | [_] => 1 <= numeral_value ds <= 9
  | [_; _] => 10 <= numeral_value ds <= 99
  | [_; _; _] => 100 <= numeral_value ds <= 999
  | _ => 1000 <= numeral_value ds
  end.
Proof.
  intros Hd Hnz. destruct ds as [|a ds]; [done|].
  assert (1 <= a <= 9) as Ha.
  { pose proof (Forall_inv Hd) as Hr. simpl in Hr.
    assert (a <> 0) by (intros ->; by apply Hnz). lia. }
  apply Forall_inv_tail in Hd.
  assert (forall acc l, 0 <= acc -> digits l ->
            acc * 10 ^ Z.of_nat (length l) <= foldl (fun a d => 10 * a + d) acc l) as Hlow.
  { intros acc l. revert acc. induction l as [|d l IH]; intros acc Hacc Hl.
    - simpl. lia.
    - pose proof (Forall_inv Hl) as Hr. simpl in Hr. apply Forall_inv_tail in Hl.
      cbn [foldl length]. rewrite Nat2Z.inj_succ, Z.pow_succ_r by lia.
      etrans; [|apply IH; [lia|done]]. nia. }
  destruct ds as [|b ds]; [unfold numeral_value; simpl; lia|].
  pose proof (Forall_inv Hd) as Hb. simpl in Hb. apply Forall_inv_tail in Hd.
  destruct ds as [|c ds]; [unfold numeral_value; simpl; lia|].
  pose proof (Forall_inv Hd) as Hc. simpl in Hc. apply Forall_inv_tail in Hd.
  destruct ds as [|e ds]; [unfold numeral_value; simpl; lia|].
  unfold numeral_value. cbn [foldl].
  pose proof (Forall_inv Hd) as He. simpl in He. apply Forall_inv_tail in Hd.
  etrans; [|apply Hlow; [lia|done]].
  assert (0 < 10 ^ Z.of_nat (length ds)) by (apply Z.pow_pos_nonneg; lia).
  nia.
Qed.

Lemma padCarNumber_plain (ds : list Z) :
  digits ds -> ds !! 0%nat <> Some 0 -> ds <> [] ->
  padCarNumber (numeral ds) = Some (numeral_value ds).
Proof.
  intros Hd Hnz Hne. unfold padCarNumber.
  pose proof (strip_zeros_numeral 0 ds Hd Hnz) as Hs.
  change (replicate 0 0 ++ ds) with ds in Hs.
  rewrite Hs, parseInt10_numeral by done.
  rewrite Z.sub_diag. reflexivity.
Qed.

Lemma padCarNumber_padded (z : nat) (ds : list Z) :
  digits ds -> ds !! 0%nat <> Some 0 -> (1 <= z)%nat -> (1 <= length ds <= 3)%nat ->
  padCarNumber (numeral (replicate z 0 ++ ds))
  = Some (numeral_value ds + 1000 * Z.of_nat (z + length ds)).
Proof.
  intros Hd Hnz Hz Hlen. unfold padCarNumber.
  rewrite strip_zeros_numeral, parseInt10_numeral, numeral_value_zeros; try done.
  2:{ by apply digits_zeros. }
  2:{ destruct z; [lia|done]. }
  rewrite !numeral_length, length_app, length_replicate.
  replace (Z.of_nat (z + length ds) - Z.of_nat (length ds)) with (Z.of_nat z) by lia.
  assert ((0 <? Z.of_nat z) = true) as -> by (apply Z.ltb_lt; lia).
  assert ((Z.of_nat (z + length ds) =? Z.of_nat z) = false) as ->
    by (apply Z.eqb_neq; lia).
  cbn [andb]. cbv iota.
  assert ((Z.of_nat z =? 0) = false) as -> by (apply Z.eqb_neq; lia).
  cbn [negb mbind option_bind]. f_equal.
  pose proof (numeral_value_range ds Hd Hnz) as Hr.
  destruct ds as [|a [|b [|c [|e ds]]]]; simpl in Hlen; try lia.
  - assert ((99 <? numeral_value [a]) = false) as -> by (apply Z.ltb_ge; lia).
    assert ((9 <? numeral_value [a]) = false) as -> by (apply Z.ltb_ge; lia).
    simpl length. lia.
  - assert ((99 <? numeral_value [a; b]) = false) as -> by (apply Z.ltb_ge; lia).
    assert ((9 <? numeral_value [a; b]) = true) as -> by (apply Z.ltb_lt; lia).
    simpl length. lia.
  - assert ((99 <? numeral_value [a; b; c]) = true) as -> by (apply Z.ltb_lt; lia).
    simpl length. lia.
Qed.

Lemma padCarNumber_zeros (z : nat) :
  padCarNumber (numeral (replicate (S z) 0))
  = Some (if decide (z = 0%nat) then 0 else 1000 * Z.of_nat (S z)).
Proof.
  unfold padCarNumber.
  pose proof (strip_zeros_numeral (S z) [] (Forall_nil_2 _)) as Hs.
  rewrite app_nil_r in Hs. rewrite Hs by done.
  pose proof (numeral_value_zeros (S z) []) as Hv. rewrite app_nil_r in Hv.
  rewrite parseInt10_numeral, Hv, numeral_length, length_replicate; try done.
  2:{ pose proof (digits_zeros (S z) [] (Forall_nil_2 _)) as H.
      by rewrite app_nil_r in H. }
  change (String.length (numeral [])) with 0%nat.
  change (numeral_value []) with 0.
  replace (Z.of_nat (S z) - Z.of_nat 0) with (Z.of_nat (S z)) by lia.
  assert ((0 <? Z.of_nat (S z)) = true) as -> by (apply Z.ltb_lt; lia).
  rewrite Z.eqb_refl. cbn [andb mbind option_bind].
  destruct (decide (z = 0%nat)) as [->|Hne]; [reflexivity|].
  assert ((Z.of_nat (S z) - 1 =? 0) = false) as -> by (apply Z.eqb_neq; lia).
  cbn [negb]. change (99 <? 0) with false. change (9 <? 0) with false.
  cbv iota. f_equal. lia.
Qed.

Lemma leading_zeros_split (l : list Z) :
  exists z ds, l = replicate z 0 ++ ds /\ ds !! 0%nat <> Some 0.
Proof.
  induction l as [|a l (z & ds & -> & Hnz)].
  - exists 0%nat, []. done.
  - destruct (decide (a = 0)) as [->|Ha].
    + exists (S z), ds. done.
    + exists 0%nat, (a :: replicate z 0 ++ ds). split; [done|].
      simpl. congruence.
Qed.

(** The code of a car number of one to three digits: the number, and for a
    number written with a leading zero 1000 times the count of its digits
    on top. *)
Lemma padCarNumber_code (l : list Z) :
  digits l -> (1 <= length l <= 3)%nat ->
  padCarNumber (numeral l)
  = Some (if bool_decide (l !! 0%nat = Some 0 /\ (2 <= length l)%nat)
          then numeral_value l + 1000 * Z.of_nat (length l)
          else numeral_value l).
Proof.
  intros Hd Hlen. destruct (leading_zeros_split l) as (z & ds & -> & Hnz).
  assert (digits ds) as Hds by (by apply Forall_app in Hd as [_ ?]).
  rewrite length_app, length_replicate in *.
  destruct z as [|z].
  - simpl. rewrite padCarNumber_plain; try done.
    + rewrite bool_decide_eq_false_2; [done|]. by intros [? _].
    + destruct ds; [simpl in Hlen; lia|done].
  - destruct ds as [|d ds].
    + rewrite !app_nil_r. rewrite padCarNumber_zeros. f_equal.
      pose proof (numeral_value_zeros (S z) []) as Hv. rewrite app_nil_r in Hv.
      rewrite Hv. change (numeral_value []) with 0.
      simpl length. rewrite Nat.add_0_r. 
      destruct (decide (z = 0%nat)) as [->|Hz].
      * rewrite bool_decide_eq_false_2; [done|]. simpl. lia.
      * rewrite bool_decide_eq_true_2; [lia|]. simpl. split; [done|lia].
    + rewrite padCarNumber_padded, numeral_value_zeros; try done; try lia.
      2:{ simpl in *. lia. }
      rewrite bool_decide_eq_true_2; [done|]. simpl in *. split; [done|lia].
Qed.



(** X19. Car numbers keep apart.  Two numbers of one to three digits that
    are written differently, such as 7, 07 and 007, have different codes,
    and every such code is below 4000. *)
Theorem padCarNumber_injective (l1 l2 : list Z) :
  digits l1 -> digits l2 ->
  (1 <= length l1 <= 3)%nat -> (1 <= length l2 <= 3)%nat ->
  (exists code, padCarNumber (numeral l1) = Some code /\ 0 <= code < 4000) /\
  (padCarNumber (numeral l1) = padCarNumber (numeral l2) -> l1 = l2).
Proof.
  intros Hd1 Hd2 Hl1 Hl2.
  rewrite !padCarNumber_code by done.
  assert (forall l, digits l -> (1 <= length l <= 3)%nat ->
            exists a b c, 0 <= a <= 9 /\ 0 <= b <= 9 /\ 0 <= c <= 9 /\
              (l = [a] \/ l = [a; b] \/ l = [a; b; c])) as Hshape.
  { intros l Hd Hl. destruct l as [|a [|b [|c [|e l]]]]; simpl in Hl; try lia.
    - exists a, 0, 0. pose proof (Forall_inv Hd). simpl in *. repeat split; try lia. by left.
    - exists a, b, 0. pose proof (Forall_inv Hd).
      pose proof (Forall_inv (Forall_inv_tail Hd)). simpl in *.
      repeat split; try lia. right. by left.
    - exists a, b, c. pose proof (Forall_inv Hd).
      pose proof (Forall_inv (Forall_inv_tail Hd)).
      pose proof (Forall_inv (Forall_inv_tail (Forall_inv_tail Hd))). simpl in *.
      repeat split; try lia. right. by right. }
  destruct (Hshape l1 Hd1 Hl1) as (a & b & c & Ha & Hb & Hc & H1).
  destruct (Hshape l2 Hd2 Hl2) as (a' & b' & c' & Ha' & Hb' & Hc' & H2).
  assert (forall l : list Z,
            bool_decide (l !! 0%nat = Some 0 /\ (2 <= length l)%nat)
            = match l with 0 :: _ :: _ => true | _ => false end) as Hflag.
  { intros [|[|p|p] [|y l]];
      first [ apply bool_decide_eq_true_2; split; [reflexivity|simpl; lia]
            | apply bool_decide_eq_false_2; intros [E1 E2]; cbv in E1;
              simpl in E2; first [discriminate E1|lia] ]. }
  rewrite !Hflag.
  split.
  - eexists. split; [reflexivity|].
    destruct H1 as [->|[->| ->]]; unfold numeral_value; destruct a; simpl; lia.
  - intros [= H].
    destruct H1 as [->|[->| ->]]; destruct H2 as [->|[->| ->]];
      unfold numeral_value in H; destruct a, a'; simpl in H;
      first [ exfalso; lia | repeat f_equal; lia ].
Qed.

Lemma padCarNumber_injective_witness :
  padCarNumber "07" <> padCarNumber "007".
Proof.
  intros H.
  destruct (padCarNumber_injective [0; 7] [0; 0; 7]) as [_ Hinj].
  - repeat constructor; lia.
  - repeat constructor; lia.
  - simpl. lia.
  - simpl. lia.
  - specialize (Hinj H). discriminate Hinj.
Defined.

(** ** The words of a broadcast *)

Lemma toInt32_mod16 (z : Z) : toInt32 z mod 2 ^ 16 = z mod 2 ^ 16.
Proof.
  unfold toInt32. change (2 ^ 31) with 2147483648. change (2 ^ 32) with 4294967296.
  change (2 ^ 16) with 65536. Z.div_mod_to_equations. lia.
Qed.

Lemma land_low_high (a c : Z) : 0 <= a < 2 ^ 16 -> Z.land a (Z.shiftl c 16) = 0.
Proof.
  intros Ha. apply Z.bits_inj'. intros n Hn.
  rewrite Z.land_spec, Z.bits_0.
  destruct (decide (n < 16)) as [Hlt|Hge].
  - rewrite (Z.shiftl_spec_low c 16 n) by lia. apply andb_false_r.
  - rewrite <- (Z.mod_small a (2 ^ 16)) by lia.
    rewrite Z.mod_pow2_bits_high by lia. reflexivity.
Qed.

Lemma lor_low_high (a c : Z) :
  0 <= a < 2 ^ 16 -> Z.lor a (Z.shiftl c 16) = a + 2 ^ 16 * c.
Proof.
  intros Ha. pose proof (land_low_high a c Ha) as Hl.
  rewrite <- Z.lxor_lor, <- Z.add_nocarry_lxor by done.
  rewrite Z.shiftl_mul_pow2 by lia. lia.
Qed.

Lemma pack_word_value (a b : Z) :
  0 <= a < 2 ^ 16 -> pack_word a b = a + 2 ^ 16 * (b mod 2 ^ 16).
Proof.
  intros Ha. unfold pack_word, toUint32, js_or, js_shl.
  change (16 mod 32) with 16.
  rewrite <- !Z.land_ones by lia. rewrite Z.land_lor_distr_l.
  rewrite !Z.land_ones by lia. rewrite !toInt32_mod_same.
  rewrite (Z.mod_small a) by (change (2 ^ 32) with 4294967296;
                               change (2 ^ 16) with 65536 in Ha; lia).
  rewrite Z.shiftl_mul_pow2 by lia.
  assert (toInt32 b * 2 ^ 16 mod 2 ^ 32 = Z.shiftl (b mod 2 ^ 16) 16) as ->.
  { rewrite Z.shiftl_mul_pow2 by lia. rewrite <- toInt32_mod16.
    change (2 ^ 32) with (2 ^ 16 * 2 ^ 16).
    rewrite Z.mul_mod_distr_r by lia. reflexivity. }
  by apply lor_low_high.
Qed.

(** X20. How a broadcast packs two numbers into a word.  With a first
    number below 65536, the word [(a | (b << 16)) >>> 0] holds [a] in its
    low 16 bits and the low 16 bits of [b], whatever integer [b] is, in its
    high 16 bits: both can be read back, and the word is an unsigned
    32-bit number. *)
Theorem broadcast_word_packing (a b : Z) :
  0 <= a < 2 ^ 16 ->
  pack_word a b = a + 2 ^ 16 * (b mod 2 ^ 16) /\
  pack_word a b mod 2 ^ 16 = a /\
  pack_word a b / 2 ^ 16 = b mod 2 ^ 16 /\
  0 <= pack_word a b < 2 ^ 32.
Proof.
  intros Ha. rewrite pack_word_value by done.
  pose proof (Z.mod_pos_bound b (2 ^ 16) ltac:(lia)) as Hb.
  change (2 ^ 32) with 4294967296. change (2 ^ 16) with 65536 in *.
  split; [done|]. repeat split; Z.div_mod_to_equations; lia.
Qed.

Lemma broadcast_word_packing_witness :
  broadcast_words 1 3007 2 (-1) = (1 + 65536 * 3007, 2 + 65536 * 65535).
Proof.
  assert (0 <= 1 < 2 ^ 16) as Ha by (change (2 ^ 16) with 65536; lia).
  assert (0 <= 2 < 2 ^ 16) as Hb by (change (2 ^ 16) with 65536; lia).
  unfold broadcast_words.
  rewrite (proj1 (broadcast_word_packing 1 3007 Ha)).
  rewrite (proj1 (broadcast_word_packing 2 (-1) Hb)).
  reflexivity.
Defined.

(** X21. A camera switch by car number carries the code of the number.
    For a car number of one to three digits and a group below 65536, the
    first word of [camSwitchNum] has the message type 1 in its low half
    and the code of [padCarNumber], unshortened, in its high half; the
    second word has the group in its low half. *)
Theorem camSwitchNum_carries_code (l : list Z) (group camera : Z) :
  digits l -> (1 <= length l <= 3)%nat -> 0 <= group < 2 ^ 16 ->
  exists code w1 w2,
    padCarNumber (numeral l) = Some code /\
    camSwitchNum_words (numeral l) group camera = Some (w1, w2) /\
    w1 mod 2 ^ 16 = 1 /\ w1 / 2 ^ 16 = code /\
    w2 mod 2 ^ 16 = group /\ w2 / 2 ^ 16 = camera mod 2 ^ 16.
Proof.
  intros Hd Hlen Hg.
  assert (exists code, padCarNumber (numeral l) = Some code /\ 0 <= code < 4000)
    as (code & Hcode & Hr).
  { rewrite padCarNumber_code by done. eexists. split; [reflexivity|].
    unfold digits in Hd.
    destruct l as [|a [|b [|c [|e l]]]]; simpl in Hlen; try lia;
      repeat match goal with
             | H : Forall _ (_ :: _) |- _ =>
                 let H' := fresh in
                 pose proof (Forall_inv H) as H'; simpl in H';
                 apply Forall_inv_tail in H
             end;
      unfold numeral_value; case_bool_decide; simpl; lia. }
  exists code, (pack_word 1 code), (pack_word group camera).
  split; [done|]. split.
  { unfold camSwitchNum_words. by rewrite Hcode. }
  rewrite !pack_word_value by (change (2 ^ 16) with 65536 in *; lia).
  pose proof (Z.mod_pos_bound camera (2 ^ 16) ltac:(lia)) as Hb.
  rewrite (Z.mod_small code) by (change (2 ^ 16) with 65536; lia).
  change (2 ^ 16) with 65536 in *.
  repeat split; Z.div_mod_to_equations; lia.
Qed.

Lemma camSwitchNum_carries_code_witness :
  exists w2, camSwitchNum_words "007" 2 0 = Some (1 + 65536 * 3007, w2).
Proof.
  destruct (camSwitchNum_carries_code [0; 0; 7] 2 0)
    as (code & w1 & w2 & Hc & Hw & H1 & H2 & _).
  - repeat constructor; lia.
  - simpl. lia.
  - lia.
  - exists w2.
    change (camSwitchNum_words "007" 2 0)
      with (camSwitchNum_words (numeral [0; 0; 7]) 2 0).
    rewrite Hw. f_equal. f_equal.
    assert (code = 3007) as -> by (vm_compute in Hc; congruence).
    change (2 ^ 16) with 65536 in *. Z.div_mod_to_equations. lia.
Defined.
